(** * Colorado trail recommender: the cleaning / recommendation pipeline

    A shallow embedding of [src/cleaning.py].  Data frames are lists of
    labelled rows, Python exceptions are an error monad, the module level
    globals read by the recommendation functions are an explicit record,
    and [print] appends to a list of lines.  Floating point cells are
    rationals.  Library calls whose code is not part of the repository
    ([np.argsort], [cosine_similarity], the NMF factorisation) are
    parameters of the sections that use them. *)

From Stdlib Require Import QArith Qround Ascii String.
From stdpp Require Import base list sorting strings gmap pretty.

Close Scope Q_scope.
Open Scope string_scope.
Open Scope list_scope.

(** ** Python exceptions *)

Inductive exn :=
  | KeyError (key : string)
  | IndexError (index size : nat)
  | AttributeError
  | ValueError.

Inductive result (A : Type) :=
  | Ok (a : A)
  | Raise (e : exn).
Arguments Ok {A} a.
Arguments Raise {A} e.

#[global] Instance result_ret : MRet result := @Ok.
#[global] Instance result_bind : MBind result := λ A B f m,
  match m with Ok a => f a | Raise e => Raise e end.
#[global] Instance result_fmap : FMap result := λ A B f m,
  match m with Ok a => Ok (f a) | Raise e => Raise e end.

(** ** Text helpers *)

Definition newline : ascii := "010"%char.
Definition carriage_return : ascii := "013"%char.

(** [str.isspace] on the ASCII range. *)
Definition py_isspace (c : ascii) : bool :=
  let n := nat_of_ascii c in
  (Nat.leb 9 n && Nat.leb n 13) || (Nat.leb 28 n && Nat.leb n 32).

Fixpoint lstrip (s : string) : string :=
  match s with
  | EmptyString => EmptyString
  | String c s' => if py_isspace c then lstrip s' else s
  end.

(** [s.strip()] *)
Definition strip (s : string) : string :=
  String.rev (lstrip (String.rev (lstrip s))).

(** [s.replace(a, b)] for one-character [a] and [b]. *)
Fixpoint replace (a b : ascii) (s : string) : string :=
  match s with
  | EmptyString => EmptyString
  | String c s' => String (if Ascii.eqb c a then b else c) (replace a b s')
  end.

(** ** Frames *)

(** A [DataFrame]: its index labels paired with its rows, in row order. *)
Abbreviation frame L R := (list (L * R)) (only parsing).
Definition index {L R} (df : frame L R) : list L := df.*1.

(** [Series.duplicated()] / [Index.duplicated()], [keep='first']: position
    [i] is marked when its value already occurs at a smaller position. *)
Fixpoint duplicated_from `{EqDecision A} (seen l : list A) : list bool :=
  match l with
  | [] => []
  | x :: l' => bool_decide (x ∈ seen) :: duplicated_from (x :: seen) l'
  end.
Definition duplicated `{EqDecision A} (l : list A) : list bool :=
  duplicated_from [] l.

(** [idx.where(cond, other)]: keep [idx] where [cond] holds, else [other]. *)
Fixpoint where_ {A} (idx : list A) (cond : list bool) (other : list A) : list A :=
  match idx, cond, other with
  | x :: idx', c :: cond', o :: other' =>
      (if c then x else o) :: where_ idx' cond' other'
  | _, _, _ => []
  end.

(** ** Corpus Builder *)

Module Corpus.

(** One review entry of the scraped review container: the code only looks
    at list-typed values and reads their field 2. *)
Inductive review_value :=
  | RList (entry : list string)
  | ROther.

(** The [reviews] cell of a record: a dict, [None], or NaN (field absent
    from the Mongo document). *)
Inductive reviews_cell :=
  | RDict (items : list (string * review_value))
  | RNone
  | RNaN.

(** A row of the raw table.  [N] is the type of the [name] column:
    [string] while it is a column, [unit] once [set_index] moved it to the
    index.  [numeric] holds the numeric attributes the code never names
    (elevation, distance, rating). *)
Record row (N : Type) := Row {
  name : N;
  url : string;
  tags : option string;
  main_description : option string;
  secondary_description : option string;
  reviews : reviews_cell;
  location : string;
  difficulty : string;
  numeric : list Q;
  number_ratings : Q;
  hike_type : string
}.
Arguments Row {N}.
Arguments name {N}. Arguments url {N}. Arguments tags {N}.
Arguments main_description {N}. Arguments secondary_description {N}.
Arguments reviews {N}. Arguments location {N}. Arguments difficulty {N}.
Arguments numeric {N}. Arguments number_ratings {N}. Arguments hike_type {N}.

Record mongo_doc := MongoDoc { _id : string; fields : row string }.

(** [mongo_to_dataframe]: a frame with a fresh [RangeIndex]. *)
Definition mongo_to_dataframe (docs : list mongo_doc) : frame nat mongo_doc :=
  imap (λ i d, (i, d)) docs.

(** [raw_df.drop_duplicates(subset='url')] *)
Definition drop_duplicates_url {L N} (df : frame L (row N)) : frame L (row N) :=
  (filter (λ p, p.2 = false) (zip df (duplicated (url ∘ snd <$> df)))).*1.

(** [raw_df.set_index('name')] *)
Definition set_index_name {L} (df : frame L (row string)) : frame string (row unit) :=
  (λ p, let r := p.2 in
        (name r, Row tt (url r) (tags r) (main_description r)
                   (secondary_description r) (reviews r) (location r)
                   (difficulty r) (numeric r) (number_ratings r) (hike_type r)))
  <$> df.

(** [idx.where(~idx.duplicated(), idx + suffix)] *)
Definition disambiguate (suffix : string) (idx : list string) : list string :=
  where_ idx (negb <$> duplicated idx) ((λ s, s +:+ suffix) <$> idx).

(** [df.index = idx] *)
Definition set_index {L L' R} (idx : list L') (df : frame L R) : frame L' R :=
  zip idx (df.*2).

(** [clean_df].  The first statement drops [_id] in place, so the caller's
    frame changes too; [drop_duplicates] then rebinds [raw_df] to a new
    frame and the caller's frame sees nothing of what follows.  The result
    is the caller's frame after the call and the returned frame. *)
Definition clean_df (raw_df : frame nat mongo_doc)
    : frame nat (row string) * frame string (row unit) :=
  let raw_df_inplace := prod_map id fields <$> raw_df in
  let raw_df := drop_duplicates_url raw_df_inplace in
  let raw_df := set_index_name raw_df in
  let raw_df := set_index (disambiguate "_2" (index raw_df)) raw_df in
  let raw_df := set_index (disambiguate "_3" (index raw_df)) raw_df in
  let raw_df := set_index (disambiguate "_4" (index raw_df)) raw_df in
  (raw_df_inplace, raw_df).

(** The review text of one item of the container ([v[2].strip()...]). *)
Definition review_text (v : review_value) : result string :=
  match v with
  | RList entry =>
      match entry !! 2 with
      | Some body =>
          Ok (replace carriage_return " " (replace newline " " (strip body)) +:+ " ")
      | None => Raise (IndexError 2 (length entry))
      end
  | ROther => Ok ""
  end.

(** How pandas reads [series[i]] for an integer [i] depends on the index:
    by label when the index holds integers ([int_label] gives them), by
    position on any other index. *)
Class IntLabels (L : Type) := int_label : option (L → nat).
#[global] Instance nat_int_labels : IntLabels nat := Some id.
#[global] Instance string_int_labels : IntLabels string := None.

(** What [data[i]] evaluates to: one cell, or the sub-series of the cells
    of all the rows labelled [i] when there are several. *)
Inductive series_item :=
  | Cell (c : reviews_cell)
  | SubSeries (cells : list reviews_cell).

(** [data[i]] *)
Definition series_getitem `{IntLabels L} (data : frame L reviews_cell) (i : nat)
    : result series_item :=
  match int_label with
  | Some as_int =>
      match filter (λ p, as_int p.1 = i) data with
      | [] => Raise (KeyError (pretty i))
      | [p] => Ok (Cell p.2)
      | ps => Ok (SubSeries ps.*2)
      end
  | None =>
      match data !! i with
      | Some p => Ok (Cell p.2)
      | None => Raise (IndexError i (length data))
      end
  end.

(** [get_review_corpus]: [data] is the [reviews] column with its index.
    The row name is read by position ([data.index[i]]), the cell through
    [data[i]].  The [.items()] of a sub-series are its cells, none of
    which is a list, so the document of such a row stays empty. *)
Definition get_review_corpus `{IntLabels L} (data : frame L reviews_cell)
    : result (list L * list string) :=
  docs ← mapM (λ i,
            cell ← series_getitem data i;
            match cell with
            | Cell (RDict items) =>
                texts ← mapM (λ kv, review_text kv.2) items;
                Ok (foldl String.app "" texts)
            | Cell RNone => Ok ""
            | Cell RNaN => Raise AttributeError
            | SubSeries _ => Ok ""
            end) (seq 0 (length data));
  Ok (index data, docs).

(** [make_reviews_df] *)
Definition make_reviews_df {L} (idx : list L) (documents : list string)
    : result (frame L string) :=
  if bool_decide (length idx = length documents)
  then Ok (zip idx documents) else Raise ValueError.

Record corpus_row := CorpusRow {
  c_url : string;
  c_tags : string;
  c_main_description : string;
  c_secondary_description : string;
  review_string : string;
  all : string
}.

(** [df_corpus['review_string'] = review_df['reviews']]: positional when
    the two indexes are equal, otherwise aligned on the labels (a label
    missing from [review_df] gives NaN; duplicate labels cannot be
    reindexed). *)
Definition align_reviews `{EqDecision L} (idx : list L) (review_df : frame L string)
    : result (list (option string)) :=
  if bool_decide (index review_df = idx) then Ok (Some <$> review_df.*2)
  else if bool_decide (NoDup (index review_df))
  then Ok ((λ l, (λ hit, hit.2.2) <$> list_find (λ p, p.1 = l) review_df) <$> idx)
  else Raise ValueError.

(** [fillna('')] on one cell *)
Definition fillna (c : option string) : string := default "" c.

(** [make_corpus_df] *)
Definition make_corpus_df `{EqDecision L} {N} (raw_df : frame L (row N))
    (review_df : frame L string) : result (frame L corpus_row) :=
  revs ← align_reviews (index raw_df) review_df;
  Ok (zip_with (λ p rev,
        let r := p.2 in
        let t := fillna (tags r) in
        let m := fillna (main_description r) in
        let s := fillna (secondary_description r) in
        let v := fillna rev in
        (p.1, CorpusRow (url r) t m s v
                (t +:+ " " +:+ m +:+ " " +:+ s +:+ " " +:+ v)))
      raw_df revs).

Record hike_row (N : Type) := HikeRow {
  h_name : N;
  h_url : string;
  h_location : string;
  h_difficulty : string;
  h_numeric : list Q;
  h_number_ratings : Q;
  h_hike_type : string
}.
Arguments HikeRow {N}.
Arguments h_name {N}. Arguments h_url {N}. Arguments h_location {N}.
Arguments h_difficulty {N}. Arguments h_numeric {N}.
Arguments h_number_ratings {N}. Arguments h_hike_type {N}.

(** [make_hike_df] *)
Definition make_hike_df {L N} (raw_df : frame L (row N)) : frame L (hike_row N) :=
  prod_map id (λ r, HikeRow (name r) (url r) (location r) (difficulty r)
                      (numeric r) (number_ratings r) (hike_type r)) <$> raw_df.

(** [hike_url_dict]: a dict comprehension, later rows overwrite earlier
    ones with the same label. *)
Definition hike_url_dict `{Countable L} {N} (raw_df : frame L (row N)) : gmap L string :=
  foldl (λ d p, <[p.1 := url p.2]> d) ∅ raw_df.

Record corpus_stage := CorpusStage {
  df_mongo : frame nat (row string);
  df_clean : frame string (row unit);
  url_dict : gmap nat string;
  df_reviews : frame nat string;
  df_corpus : frame nat corpus_row;
  df_hike : frame nat (hike_row string)
}.

(** Lines 224-230 of the script: every step after [clean_df] is applied to
    [df_mongo], not to [df_clean].  A frame built from no document at all
    has no columns, and [clean_df] then raises at [raw_df.drop('_id', axis=1)]. *)
Definition main_corpus (docs : list mongo_doc) : result corpus_stage :=
  let df_mongo := mongo_to_dataframe docs in
  _ ← (if bool_decide (length docs = 0)
       then Raise (KeyError "['_id'] not found in axis") else Ok ());
  let '(df_mongo, df_clean) := clean_df df_mongo in
  let hike_url_dict := hike_url_dict df_mongo in
  '(rows, docs) ← get_review_corpus (prod_map id reviews <$> df_mongo);
  df_reviews ← make_reviews_df rows docs;
  df_corpus ← make_corpus_df df_mongo df_reviews;
  let df_hike := make_hike_df df_mongo in
  Ok (CorpusStage df_mongo df_clean hike_url_dict df_reviews df_corpus df_hike).

End Corpus.

(** ** Topic Model *)

Module Topics.

(** [np.rint]: round to the nearest integer, halves to the even one. *)
Definition rint (q : Q) : Z :=
  let f := Qfloor q in
  match (q - inject_Z f ?= 1 # 2)%Q with
  | Lt => f
  | Gt => (f + 1)%Z
  | Eq => if Z.even f then f else (f + 1)%Z
  end.

(** [x.round(2)], on the rationals: [rint (x * 100) / 100] with the
    product taken exactly.  The code rounds doubles, whose product can fall
    on the other side of a tie by one unit in the last place. *)
Definition round2 (q : Q) : Q := Qred (inject_Z (rint (q * 100)) / 100).

Definition Qltb (x y : Q) : bool := negb (Qle_bool y x).

(** [np.argmax] of one row: the first position holding the maximum. *)
Fixpoint argmax_from (best : nat) (bv : Q) (i : nat) (l : list Q) : nat :=
  match l with
  | [] => best
  | x :: l' =>
      if Qltb bv x then argmax_from i x (S i) l' else argmax_from best bv (S i) l'
  end.

Definition argmax (v : list Q) : result nat :=
  match v with
  | [] => Raise ValueError
  | x :: l => Ok (argmax_from 0 x 1 l)
  end.

(** Modelled from the spec: [document_topics] lives in [src/nlp_pipeline],
    which is not among the sources.  The spec says: "For each document,
    compute its majority topic as the argmax column of its row in the
    document-topic matrix"; the 1-indexing is done by the caller below. *)
Definition document_topics (W : list (list Q)) : result (list nat) :=
  mapM argmax W.

(** A table of loadings with its column labels. *)
Record loadings (L R : Type) := Loadings {
  columns : list string;
  rows : frame L R
}.
Arguments Loadings {L R}.
Arguments columns {L R}.
Arguments rows {L R}.

Record W_row := WRow { topic_loadings : list Q; majority_topic : nat }.

(** [pd.DataFrame(data, index=idx, columns=cols)] for a 2-d array. *)
Definition DataFrame {L} (data : list (list Q)) (idx : list L) (cols : list string)
    : result (loadings L (list Q)) :=
  if bool_decide (length data = length idx
                  ∧ Forall (λ r, length r = length cols) data)
  then Ok (Loadings cols (zip idx data)) else Raise ValueError.

Section nmf.
Context {L P : Type}.
(** From [src/nlp_pipeline]: the factorisation, and the table of top
    words ([print_topics (get_topic_words H feats n) False]). *)
Variable get_nmf : list (list Q) → nat → nat → list (list Q) * list (list Q).
Variable topic_table : list (list Q) → list string → nat → P.

Definition nmf_topic_modeling {C} (corpus : frame L C)
    (tfidf_matrix : list (list Q)) (tfidf_feats : list string)
    (n_topics n_words max_iter : nat)
    : result (P * loadings L W_row * loadings string (list Q)) :=
  let '(W, H) := get_nmf tfidf_matrix n_topics max_iter in
  let df_pretty := topic_table H tfidf_feats n_words in
  topics ← document_topics W;
  _ ← (if bool_decide (length topics = length corpus)
       then Ok () else Raise ValueError);
  let cols := (λ i, "topic_" +:+ pretty i) <$> seq 1 n_topics in
  W_df ← DataFrame (map round2 <$> W) (index corpus) cols;
  majority ← document_topics W;
  let W_df := Loadings (columns W_df ++ ["majority_topic"])
                (zip_with (λ p m, (p.1, WRow p.2 (m + 1))) (rows W_df) majority) in
  H_df ← DataFrame (map round2 <$> H) cols tfidf_feats;
  Ok (df_pretty, W_df, H_df).
End nmf.

End Topics.

(** ** Feature Fusion *)

Module Fusion.
Import Corpus Topics.

(** [left.merge(right, left_index=True, right_index=True)]: inner join on
    the index, in the order of the left keys.  (When a label repeats in
    one of the tables pandas returns the same rows sorted by label.) *)
Definition merge `{EqDecision L} {A B} (left : frame L A) (right : frame L B)
    : frame L (A * B) :=
  p ← left; q ← right; if decide (p.1 = q.1) then [(p.1, (p.2, q.2))] else [].

(** The categories [get_dummies] derives from a column: its distinct
    values, sorted. *)
Definition categories (values : list string) : list string :=
  merge_sort String.le (remove_dups values).

(** The indicator cells of one row, [drop_first=True]. *)
Definition dummies (cats : list string) (v : string) : list Q :=
  (λ c, if decide (c = v) then 1%Q else 0%Q) <$> tail cats.

Definition dummy_columns (prefix : string) (cats : list string) : list string :=
  (λ c, prefix +:+ "_" +:+ c) <$> tail cats.

(** [df.rename(columns=cols_to_rename)] on one label *)
Definition rename (c : string) : string :=
  if decide (c = "hike_type_Out & Back") then "out_and_back"
  else if decide (c = "hike_type_Point to Point") then "point_to_point"
  else c.

(** A row of [df_merged]: the [name] column when it still is one (it is
    not a feature of the code's own choosing) and the numeric cells. *)
Record fused_row (N : Type) := FusedRow { f_name : N; features : list Q }.
Arguments FusedRow {N}.
Arguments f_name {N}.
Arguments features {N}.

Section fusion.
Context `{EqDecision L} {N : Type}.
(** The labels of the numeric attribute columns of [df_hike]. *)
Variable numeric_columns : list string.

(** Lines 240-244 of the script. *)
Definition fuse (df_hike : frame L (hike_row N)) (W_df : loadings L W_row)
    : loadings L (fused_row N) :=
  let df_merged := merge df_hike (rows W_df) in
  (* .drop(['url', 'majority_topic', 'location', 'number_ratings'], axis=1) *)
  let topic_columns := filter (λ c, c ≠ "majority_topic") (columns W_df) in
  (* pd.get_dummies(df_merged, columns=['difficulty', 'hike_type'], drop_first=True) *)
  let difficulty_cats := categories ((λ p, h_difficulty p.2.1) <$> df_merged) in
  let hike_type_cats := categories ((λ p, h_hike_type p.2.1) <$> df_merged) in
  let cols := numeric_columns ++ topic_columns
              ++ dummy_columns "difficulty" difficulty_cats
              ++ dummy_columns "hike_type" hike_type_cats in
  Loadings (rename <$> cols)
    ((λ p, let h := p.2.1 in let w := p.2.2 in
           (p.1, FusedRow (h_name h)
                   (h_numeric h ++ topic_loadings w
                    ++ dummies difficulty_cats (h_difficulty h)
                    ++ dummies hike_type_cats (h_hike_type h))))
     <$> df_merged).
End fusion.

End Fusion.

(** ** Similarity Engine *)

Module Engine.

(** The documented contract of [np.argsort] (default [kind], which makes
    no promise on the order of equal values): the result lists every
    position once, by ascending value. *)
Class Argsort := {
  argsort : list Q → list nat;
  argsort_perm : ∀ v, argsort v ≡ₚ seq 0 (length v);
  argsort_sorted : ∀ v i j a b x y,
    i < j → argsort v !! i = Some a → argsort v !! j = Some b →
    v !! a = Some x → v !! b = Some y → (x <= y)%Q
}.

(** The sort keeps the ties of [v] when the positions of equal values of
    [v] come out in their original order. *)
Definition keeps_ties `{Argsort} (v : list Q) : Prop :=
  ∀ i j a b x y,
    i < j → argsort v !! i = Some a → argsort v !! j = Some b →
    v !! a = Some x → v !! b = Some y → (x == y)%Q → a < b.

(** A sort is stable when it keeps the ties of every input. *)
Definition stable `{Argsort} : Prop := ∀ v, keeps_ties v.

(** [l[start:stop]] *)
Definition py_slice {A} (start stop : Z) (l : list A) : list A :=
  let n := Z.of_nat (length l) in
  let clamp i := if (i <? 0)%Z then Z.max 0 (i + n) else Z.min i n in
  let a := clamp start in
  let b := clamp stop in
  take (Z.to_nat (b - a)) (drop (Z.to_nat a) l).

(** A two-dimensional [ndarray]: [shape1] is [X.shape[1]]. *)
Record ndarray := NDArray { shape1 : nat; data : list (list Q) }.

(** The module-level names the recommendation functions read. *)
Record globals := Globals {
  similarity_df : frame string (list Q);
  df_merged_index : list string;
  hike_url_dict : gmap string string;
  X : ndarray;
  hikes : list string
}.

Record world := World { globs : globals; stdout : list string }.

(** Computations that read the globals, print, and may raise.  There is no
    operation that writes a global: the functions below contain no
    assignment to one. *)
Definition py (A : Type) : Type := world → result A * world.

#[global] Instance py_ret : MRet py := λ A a w, (Ok a, w).
#[global] Instance py_bind : MBind py := λ A B f m w,
  match m w with
  | (Ok a, w') => f a w'
  | (Raise e, w') => (Raise e, w')
  end.

Definition raise {A} (e : exn) : py A := λ w, (Raise e, w).
Definition global {A} (f : globals → A) : py A := λ w, (Ok (f (globs w)), w).
Definition print (line : string) : py unit :=
  λ w, (Ok (), World (globs w) (stdout w ++ [line])).

(** [df.loc[label]] on a frame with unique labels. *)
Definition loc (df : frame string (list Q)) (label : string) : py (list Q) :=
  match list_find (λ p, p.1 = label) df with
  | Some hit => mret hit.2.2
  | None => raise (KeyError label)
  end.

(** [l[i]] for [i >= 0] *)
Definition getitem {A} (l : list A) (i : nat) : py A :=
  match l !! i with
  | Some x => mret x
  | None => raise (IndexError i (length l))
  end.

(** [d[k]] *)
Definition dict_getitem (d : gmap string string) (k : string) : py string :=
  match d !! k with
  | Some v => mret v
  | None => raise (KeyError k)
  end.

(** [np.where(hikes == i)[0]] *)
Definition where_eq (hikes : list string) (i : string) : list nat :=
  (filter (λ p, p.2 = i) (imap pair hikes)).*1.

Definition zeros (n : nat) : list Q := replicate n 0%Q.

(** [u += x] on vectors of one shape *)
Definition vadd (u x : list Q) : list Q := zip_with Qplus u x.

(** The inner product; the cosine of two vectors is [dot u v] over the
    product of the norms [sqrt (dot u u)] and [sqrt (dot v v)]. *)
Definition dot (u v : list Q) : Q := foldr Qplus 0%Q (zip_with Qmult u v).

(** scikit-learn's [cosine_similarity] divides each vector by its norm, a
    zero norm counting as one ([normalize]), and takes the inner product
    of the two results.  [norm2 x] is the square of what [x] is divided
    by. *)
Definition norm2 (x : list Q) : Q :=
  if Qeq_bool (dot x x) 0 then 1%Q else dot x x.

(** [c] is that value for [x] and [y].  Without the square root, which
    the rationals lack: [c] has the sign of [dot x y], and its square is
    the square of [dot x y] over [norm2 x * norm2 y]. *)
Definition is_cosine (x y : list Q) (c : Q) : bool :=
  Qeq_bool (c * c * (norm2 x * norm2 y)) (dot x y * dot x y)
  && Qle_bool 0 (c * dot x y).

Section engine.
Context `{Argsort}.
(** [cosine_similarity] of scikit-learn, on one pair of vectors. *)
Variable cosine_similarity : list Q → list Q → Q.

(** The loop that prints one line per recommendation. *)
Definition print_recs (hikes : list string) (idx : list nat) (recs : list string)
    : py unit :=
  hike_url_dict ← global hike_url_dict;
  _ ← mapM (λ p, h ← getitem hikes p.1;
                 u ← dict_getitem hike_url_dict p.2;
                 print (h +:+ ": " +:+ u)) (zip idx recs);
  mret ().

Definition get_hike_recommendations (baseline_hike : string) (n_hikes : Z)
    : py unit :=
  similarity_df ← global similarity_df;
  sim_series ← loc similarity_df baseline_hike;
  let idx := py_slice 1 (n_hikes + 1) (reverse (argsort sim_series)) in
  hikes ← global df_merged_index;
  recs ← mapM (getitem hikes) idx;
  _ ← print ("Because you enjoyed " +:+ baseline_hike
             +:+ ", you may like these:" +:+ String newline "");
  print_recs hikes idx recs.

Definition _get_user_profile (items : list string) : py (list Q) :=
  X ← global X;
  hikes ← global hikes;
  let user_profile := zeros (shape1 X) in
  foldl (λ acc i,
           user_profile ← acc;
           idx ← getitem (where_eq hikes i) 0;
           x ← getitem (data X) idx;
           mret (vadd user_profile x))
        (mret user_profile) items.

Definition get_user_recommendation (items : list string) (n : Z) : py unit :=
  user_prof ← _get_user_profile items;
  X ← global X;
  hikes ← global hikes;
  let user_similarity := (λ x, cosine_similarity x user_prof) <$> data X in
  let idx := py_slice (Z.of_nat (length items)) (n + Z.of_nat (length items))
               (reverse (argsort user_similarity)) in
  recs ← mapM (getitem hikes) idx;
  _ ← print ("Because you enjoyed " +:+ String.concat ", " items
             +:+ ", you may like these:" +:+ String newline "");
  print_recs hikes idx recs.
End engine.

(** Insertion sort of the positions, which is what numpy's default sort
    (an introsort) does with an array of at most 16 elements: a position
    moves left past the strictly greater values only, so equal values
    stay in their original order. *)
Fixpoint insert_idx (v : list Q) (i : nat) (sorted : list nat) : list nat :=
  match sorted with
  | [] => [i]
  | j :: rest =>
      if Topics.Qltb (nth i v 0%Q) (nth j v 0%Q) then i :: j :: rest
      else j :: insert_idx v i rest
  end.

Definition insertion_argsort (v : list Q) : list nat :=
  foldl (λ sorted i, insert_idx v i sorted) [] (seq 0 (length v)).

End Engine.

(** ** Keywords *)

Module Keywords.
Import Engine.

(** A matrix of term counts, [int64] as [CountVectorizer] builds it;
    [shape1] is [X.shape[1]]. *)
Record counts := Counts { shape1 : nat; data : list (list Z) }.

(** The value an [int64] operation leaves: the exact result wrapped
    around into [-2^63 .. 2^63 - 1]. *)
Definition wrap64 (z : Z) : Z := ((z + 2 ^ 63) mod 2 ^ 64 - 2 ^ 63)%Z.

(** The exact sum of column [j]. *)
Definition column_total (X : counts) (j : nat) : Z :=
  foldl Z.add 0%Z ((λ r, nth j r 0%Z) <$> data X).

(** [np.sum(X, axis=0)]: one [int64] sum per column. *)
Definition column_sums (X : counts) : list Z :=
  (λ j, wrap64 (column_total X j)) <$> seq 0 (shape1 X).

(** [l[i]] for [i >= 0], outside the [py] monad *)
Definition item {A} (l : list A) (i : nat) : result A :=
  match l !! i with
  | Some x => Ok x
  | None => Raise (IndexError i (length l))
  end.

(** [get_top_words_tf].  The negation [-summed] is an [int64] operation
    too; [int(summed[i])] is the value of the [int64] cell.  The dict
    comprehension inserts in order, so a later entry with the same word
    replaces an earlier one. *)
Definition get_top_words_tf `{Argsort} (X : counts) (features : list string)
    (n_words : Z) : result (gmap string Z) :=
  let summed := column_sums X in
  let indices_top :=
    py_slice 0 n_words (argsort ((λ t, inject_Z (wrap64 (- t))) <$> summed)) in
  entries ← mapM (λ i, word ← item features i;
                       total ← item summed i;
                       Ok (word, total)) indices_top;
  Ok (foldl (λ top_dict kv, <[kv.1 := kv.2]> top_dict) ∅ entries).

End Keywords.

(** ** Similarity matrix *)

Module Similarity.
Import Topics Fusion Engine.

Section make_sim_matrix.
(** From scikit-learn: [StandardScaler(with_mean, with_std).fit_transform]
    and [cosine_similarity] on one pair of rows. *)
Variable fit_transform : bool → bool → list (list Q) → list (list Q).
Variable cosine_similarity : list Q → list Q → Q.

(** [make_sim_matrix].  The body calls [cosine_similarity] itself: the
    argument [similarity_measure] is never used. *)
Definition make_sim_matrix {M} (merged_df : loadings string (fused_row unit))
    (similarity_measure : M) (mean std : bool)
    : result (loadings string (list Q) * loadings string (list Q) * ndarray) :=
  let idx := index (rows merged_df) in
  df_scaled ← DataFrame (fit_transform mean std (features ∘ snd <$> rows merged_df))
                 idx (columns merged_df);
  let X := (rows df_scaled).*2 in
  similarity_df ← DataFrame ((λ x, cosine_similarity x <$> X) <$> X) idx idx;
  Ok (df_scaled, similarity_df, NDArray (length (columns merged_df)) X).
End make_sim_matrix.

End Similarity.

(** ** Sample inputs *)

Module Samples.
Import Corpus.

(** A scraped record with one review. *)
Definition trail (id name url : string) : mongo_doc :=
  MongoDoc id
    (Row name url (Some "dogs on leash") (Some "A shaded canyon walk.") None
       (RDict [("0", RList ["ann"; "5"; " Lovely views. "])])
       "Boulder" "moderate" [1200; 4; 9 # 2]%Q 310%Q "Loop").

(** Five different trails (different urls) that share one name. *)
Definition five_namesakes : list mongo_doc :=
  [trail "1" "Bear Creek Trail" "/trail/bear-creek-1";
   trail "2" "Bear Creek Trail" "/trail/bear-creek-2";
   trail "3" "Bear Creek Trail" "/trail/bear-creek-3";
   trail "4" "Bear Creek Trail" "/trail/bear-creek-4";
   trail "5" "Bear Creek Trail" "/trail/bear-creek-5"].

(** One trail scraped twice (same url) and another one. *)
Definition scraped_twice : list mongo_doc :=
  [trail "1" "Royal Arch Trail" "/trail/royal-arch";
   trail "2" "Royal Arch Trail" "/trail/royal-arch";
   trail "3" "Bear Creek Trail" "/trail/bear-creek"].

(** A factorisation of a three-document corpus into two topics. *)
Definition sample_corpus : frame string string :=
  [("Royal Arch Trail", "steep rocky arch views");
   ("Bear Creek Trail", "shaded creek walk");
   ("Mesa Trail", "rolling mesa meadow")].
Definition sample_feats : list string := ["arch"; "creek"; "mesa"].
Definition sample_W : list (list Q) :=
  [[123 # 1000; 877 # 1000]; [1 # 2; 1 # 2]; [9 # 10; 1 # 20]]%Q.
Definition sample_H : list (list Q) :=
  [[1 # 3; 0; 2 # 3]; [0; 5 # 8; 0]]%Q.
Definition sample_nmf (tfidf : list (list Q)) (n_components max_iter : nat)
    : list (list Q) * list (list Q) := (sample_W, sample_H).
Definition sample_topic_table (H : list (list Q)) (feats : list string) (n : nat)
    : unit := tt.

Definition sample_topics
    : result (unit * Topics.loadings string Topics.W_row
              * Topics.loadings string (list Q)) :=
  Topics.nmf_topic_modeling sample_nmf sample_topic_table sample_corpus
    [] sample_feats 2 10 250.

Definition sample_W_df : Topics.loadings string Topics.W_row :=
  Eval vm_compute in
    match sample_topics with
    | Ok out => out.1.2
    | Raise _ => Topics.Loadings [] []
    end.
Definition sample_H_df : Topics.loadings string (list Q) :=
  Eval vm_compute in
    match sample_topics with
    | Ok out => out.2
    | Raise _ => Topics.Loadings [] []
    end.

(** The hike attributes of the same three trails, indexed by name. *)
Definition sample_numeric_columns : list string :=
  ["elevation"; "distance"; "rating"].
Definition sample_hikes : frame string (hike_row unit) :=
  [("Royal Arch Trail",
    HikeRow tt "/trail/royal-arch" "Boulder" "hard" [1400; 7 # 2; 9 # 2]%Q 310%Q
      "Out & Back");
   ("Bear Creek Trail",
    HikeRow tt "/trail/bear-creek" "Morrison" "easy" [300; 2; 4]%Q 120%Q "Loop");
   ("Mesa Trail",
    HikeRow tt "/trail/mesa" "Boulder" "moderate" [900; 13; 17 # 4]%Q 85%Q
      "Point to Point")].


(** A loaded state for the queries: four trails whose scaled feature
    vectors have norm one, so that their cosine is their inner product. *)
Definition sample_names : list string :=
  ["Royal Arch Trail"; "Bear Creek Trail"; "Mesa Trail"; "Hidden Lake Trail"].
Definition sample_urls : gmap string string :=
  list_to_map [("Royal Arch Trail", "/trail/royal-arch");
               ("Bear Creek Trail", "/trail/bear-creek");
               ("Mesa Trail", "/trail/mesa");
               ("Hidden Lake Trail", "/trail/hidden-lake")].
Definition sample_X : Engine.ndarray :=
  Engine.NDArray 2 [[1; 0]; [3 # 5; 4 # 5]; [4 # 5; 3 # 5]; [0; 1]]%Q.
Definition sample_similarity : frame string (list Q) :=
  zip sample_names
    [[1; 3 # 5; 4 # 5; 0]; [3 # 5; 1; 24 # 25; 4 # 5];
     [4 # 5; 24 # 25; 1; 3 # 5]; [0; 4 # 5; 3 # 5; 1]]%Q.
Definition sample_globals : Engine.globals :=
  Engine.Globals sample_similarity sample_names sample_urls sample_X sample_names.

(** Another one: the first two trails have the same feature vector. *)
Definition twin_names : list string :=
  ["Royal Arch Trail"; "Bear Creek Trail"; "Mesa Trail"].
Definition twin_X : Engine.ndarray :=
  Engine.NDArray 2 [[1; 0]; [1; 0]; [0; 1]]%Q.
Definition twin_similarity : frame string (list Q) :=
  zip twin_names [[1; 1; 0]; [1; 1; 0]; [0; 0; 1]]%Q.
Definition twin_globals : Engine.globals :=
  Engine.Globals twin_similarity twin_names sample_urls twin_X twin_names.

End Samples.

(** * Properties *)

(** ** Corpus Builder *)

Module CorpusFacts.
Import Corpus Samples.

Lemma mapM_result_length {A B} (f : A → result B) (xs : list A) (ys : list B) :
  mapM f xs = Ok ys → length ys = length xs.
Proof.
  revert ys. induction xs as [|x xs IH]; intros ys; simpl.
  - intros [= <-]. done.
  - destruct (f x) as [y|e]; simpl; [|done].
    destruct (mapM f xs) as [ys'|e]; simpl; [|done].
    intros [= <-]. simpl. f_equal. by apply IH.
Qed.

Lemma index_zip_with_row {L R S T} (g : L * R → S → T) (df : frame L R) (ss : list S) :
  length ss = length df →
  index (zip_with (λ p s, (p.1, g p s)) df ss) = index df.
Proof.
  unfold index. revert ss.
  induction df as [|p df IH]; intros [|s ss] Hlen; simpl in *; try done.
  f_equal. apply IH. lia.
Qed.

Lemma align_reviews_length `{EqDecision L} (idx : list L) review_df revs :
  align_reviews idx review_df = Ok revs → length revs = length idx.
Proof.
  unfold align_reviews. case_bool_decide as Hidx.
  - intros [= <-]. rewrite <- Hidx. unfold index.
    by rewrite !length_fmap.
  - case_bool_decide; [|done]. intros [= <-]. by rewrite length_fmap.
Qed.

(** [make_corpus_df] keeps the rows of the frame it is given, one document
    per row, in the same order. *)
Lemma make_corpus_df_index `{EqDecision L} {N} (raw_df : frame L (row N)) review_df df :
  make_corpus_df raw_df review_df = Ok df → index df = index raw_df.
Proof.
  unfold make_corpus_df.
  destruct (align_reviews (index raw_df) review_df) as [revs|e] eqn:Hal; [|done].
  simpl. intros [= <-].
  apply align_reviews_length in Hal.
  apply (index_zip_with_row (λ p rev, CorpusRow _ _ _ _ _ _)).
  rewrite Hal. unfold index. by rewrite length_fmap.
Qed.

Lemma index_imap_from {A} (k : nat) (l : list A) :
  (imap (λ i d, (k + i, d)) l).*1 = seq k (length l).
Proof.
  revert k. induction l as [|d l IH]; intros k; simpl; [done|].
  f_equal; [lia|]. rewrite <- (IH (S k)). f_equal.
  apply imap_ext. intros i x _. simpl. f_equal. lia.
Qed.

Lemma index_mongo_to_dataframe docs :
  index (mongo_to_dataframe docs) = seq 0 (length docs).
Proof. apply (index_imap_from 0). Qed.

(** In the script the corpus table has one row per scraped record (the raw
    frame), whatever [clean_df] removed. *)
Lemma main_corpus_index docs s :
  main_corpus docs = Ok s → index (df_corpus s) = seq 0 (length docs).
Proof.
  unfold main_corpus, clean_df.
  case_bool_decide; [done|]. simpl.
  destruct (get_review_corpus _) as [[rows docs']|e]; [|done]. simpl.
  destruct (make_reviews_df rows docs') as [df_reviews|e]; [|done]. simpl.
  destruct (make_corpus_df _ df_reviews) as [df_corpus|e] eqn:Hc; [|done]. simpl.
  intros [= <-]. simpl.
  apply make_corpus_df_index in Hc. rewrite Hc.
  rewrite <- index_mongo_to_dataframe. unfold index.
  rewrite <- list_fmap_compose. by apply list_fmap_ext.
Qed.

(** C1 (code does not do this): five trails sharing a name are a 5-way
    collision; the three fixed passes of [clean_df] leave the last two
    with the same key, so the keys are not distinct. *)
Theorem clean_df_five_way_collision :
  index (clean_df (mongo_to_dataframe five_namesakes)).2
  = ["Bear Creek Trail"; "Bear Creek Trail_2"; "Bear Creek Trail_2_3";
     "Bear Creek Trail_2_3_4"; "Bear Creek Trail_2_3_4"]
  ∧ ¬ NoDup (index (clean_df (mongo_to_dataframe five_namesakes)).2).
Proof.
  assert (Hidx : index (clean_df (mongo_to_dataframe five_namesakes)).2
    = ["Bear Creek Trail"; "Bear Creek Trail_2"; "Bear Creek Trail_2_3";
       "Bear Creek Trail_2_3_4"; "Bear Creek Trail_2_3_4"])
    by (vm_compute; reflexivity).
  split; [exact Hidx|]. rewrite Hidx. intros Hnd.
  do 3 (apply NoDup_cons in Hnd as [_ Hnd]).
  apply NoDup_cons in Hnd as [Hin _]. apply Hin. left.
Qed.

(** C7 (code does not do this): a trail scraped twice is removed from the
    deduplicated index, but the script builds the corpus from the raw
    frame, so the corpus has a document for the duplicate too. *)
Theorem main_corpus_keeps_duplicate_urls :
  ∃ s, main_corpus scraped_twice = Ok s
       ∧ index (df_clean s) = ["Royal Arch Trail"; "Bear Creek Trail"]
       ∧ index (df_corpus s) = [0; 1; 2]
       ∧ length (df_corpus s) ≠ length (df_clean s).
Proof.
  destruct (main_corpus scraped_twice) as [s|e] eqn:Hs;
    [|by vm_compute in Hs].
  exists s. split; [done|].
  assert (Hclean : index (df_clean s) = ["Royal Arch Trail"; "Bear Creek Trail"]).
  { assert (Hq : (λ s, index (df_clean s)) <$> main_corpus scraped_twice
                  = Ok ["Royal Arch Trail"; "Bear Creek Trail"])
      by (vm_compute; reflexivity).
    rewrite Hs in Hq. by injection Hq. }
  pose proof (main_corpus_index _ _ Hs) as Hcorpus.
  split; [done|]. split; [done|].
  rewrite <- (length_fmap fst (df_corpus s)), <- (length_fmap fst (df_clean s)).
  fold (index (df_corpus s)). fold (index (df_clean s)).
  rewrite Hcorpus, Hclean. simpl. lia.
Qed.

End CorpusFacts.

(** ** Topic Model *)

Module TopicsFacts.
Import Topics.

Lemma mapM_result_Forall2 {A B} (f : A → result B) (xs : list A) (ys : list B) :
  mapM f xs = Ok ys → Forall2 (λ x y, f x = Ok y) xs ys.
Proof.
  revert ys. induction xs as [|x xs IH]; intros ys; simpl.
  - intros [= <-]. constructor.
  - destruct (f x) as [y|e] eqn:Hx; simpl; [|done].
    destruct (mapM f xs) as [ys'|e]; simpl; [|done].
    intros [= <-]. constructor; [done|]. by apply IH.
Qed.

Lemma Qltb_lt x y : Qltb x y = true ↔ (x < y)%Q.
Proof.
  unfold Qltb. rewrite negb_true_iff, <- not_true_iff_false, Qle_bool_iff.
  split; [apply Qnot_le_lt | apply Qlt_not_le].
Qed.

Lemma Qltb_ge x y : Qltb x y = false ↔ (y <= x)%Q.
Proof. unfold Qltb. by rewrite negb_false_iff, Qle_bool_iff. Qed.

(** Column [k] holds a maximum of row [v], and no earlier column does. *)
Definition is_argmax (v : list Q) (k : nat) : Prop :=
  ∃ m, v !! k = Some m
       ∧ (∀ j x, v !! j = Some x → (x <= m)%Q)
       ∧ (∀ j x, j < k → v !! j = Some x → (x < m)%Q).

Lemma argmax_from_spec (pre l : list Q) (best : nat) (bv : Q) :
  pre !! best = Some bv →
  (∀ j x, pre !! j = Some x → (x <= bv)%Q) →
  (∀ j x, j < best → pre !! j = Some x → (x < bv)%Q) →
  is_argmax (pre ++ l) (argmax_from best bv (length pre) l).
Proof.
  revert pre best bv. induction l as [|x l IH]; intros pre best bv Hb Hmax Hfirst.
  - simpl. rewrite app_nil_r. by exists bv.
  - simpl. rewrite cons_middle, app_assoc.
    assert (Hlen : S (length pre) = length (pre ++ [x]))
      by (rewrite length_app; simpl; lia).
    rewrite Hlen.
    destruct (Qltb bv x) eqn:Hcmp.
    + apply Qltb_lt in Hcmp. apply IH.
      * rewrite lookup_app_r by lia. by rewrite Nat.sub_diag.
      * intros j y Hj. apply lookup_app_Some in Hj as [Hj|[_ Hj]].
        -- apply Qle_trans with bv; [by eapply Hmax | by apply Qlt_le_weak].
        -- apply list_lookup_singleton_Some in Hj as [_ <-]. apply Qle_refl.
      * intros j y Hlt Hj. rewrite lookup_app_l in Hj by lia.
        apply Qle_lt_trans with bv; [by eapply Hmax | done].
    + apply Qltb_ge in Hcmp.
      pose proof (lookup_lt_Some _ _ _ Hb) as Hbl. apply IH.
      * by rewrite lookup_app_l.
      * intros j y Hj. apply lookup_app_Some in Hj as [Hj|[_ Hj]].
        -- by eapply Hmax.
        -- by apply list_lookup_singleton_Some in Hj as [_ <-].
      * intros j y Hlt Hj. rewrite lookup_app_l in Hj by lia. by eapply Hfirst.
Qed.

Lemma argmax_spec (v : list Q) (k : nat) :
  argmax v = Ok k → is_argmax v k ∧ k < length v.
Proof.
  destruct v as [|x l]; simpl; [done|]. intros [= <-].
  assert (Ha : is_argmax ([x] ++ l) (argmax_from 0 x (length [x]) l)).
  { apply argmax_from_spec; [done| |intros; lia].
    intros j y Hj. apply list_lookup_singleton_Some in Hj as [_ <-].
    apply Qle_refl. }
  simpl in Ha. split; [done|].
  destruct Ha as (m & Hm & _). by apply lookup_lt_Some in Hm.
Qed.

(** [argmax] only fails on an empty row. *)
Lemma argmax_total (v : list Q) : 0 < length v → ∃ k, argmax v = Ok k.
Proof. destruct v; simpl; [lia|eauto]. Qed.

Section nmf_facts.
Context {L P C : Type}.
Variable get_nmf : list (list Q) → nat → nat → list (list Q) * list (list Q).
Variable topic_table : list (list Q) → list string → nat → P.

(** What a successful call of [nmf_topic_modeling] tells about its
    document-topic table, row by row. *)
Lemma nmf_topic_modeling_rows (corpus : frame L C) tfidf feats
    n_topics n_words max_iter df_pretty W_df H_df :
  nmf_topic_modeling get_nmf topic_table corpus tfidf feats n_topics n_words max_iter
  = Ok (df_pretty, W_df, H_df) →
  length (rows W_df) = length corpus ∧
  ∀ i l r, rows W_df !! i = Some (l, r) →
    ∃ w k, (get_nmf tfidf n_topics max_iter).1 !! i = Some w
           ∧ index corpus !! i = Some l
           ∧ length w = n_topics
           ∧ argmax w = Ok k
           ∧ topic_loadings r = round2 <$> w
           ∧ majority_topic r = k + 1.
Proof.
  unfold nmf_topic_modeling.
  destruct (get_nmf tfidf n_topics max_iter) as [W H]. simpl.
  destruct (document_topics W) as [topics|e] eqn:Htop; [|done]. simpl.
  case_bool_decide as Hlen; [|done]. simpl.
  destruct (DataFrame (map round2 <$> W) _ _) as [W_df0|e] eqn:HW; simpl; [|done].
  destruct (DataFrame (map round2 <$> H) _ feats) as [H_df0|e]; simpl; [|done].
  intros [= _ <- _]. simpl.
  unfold DataFrame in HW. case_bool_decide as Hshape; [|done].
  injection HW as <-. simpl.
  destruct Hshape as [HlenW Hcols].
  unfold index in HlenW. rewrite !length_fmap in HlenW.
  apply mapM_result_Forall2 in Htop.
  pose proof (Forall2_length _ _ _ Htop) as HlenT.
  split.
  { rewrite length_zip_with, length_zip. unfold index.
    rewrite !length_fmap. lia. }
  intros i l r Hi.
  apply lookup_zip_with_Some in Hi as ([l' rw] & k & [= -> ->] & Hz & Hk).
  apply lookup_zip_Some in Hz as [Hl Hrw]. simpl in *.
  apply list_lookup_fmap_Some in Hrw as (w & -> & Hw).
  exists w, k. repeat split; try done.
  - rewrite Forall_forall in Hcols.
    assert (Hin : map round2 w ∈ (map round2 <$> W)).
    { apply list_elem_of_fmap. exists w. split; [done|].
      by eapply list_elem_of_lookup_2. }
    apply Hcols in Hin. rewrite length_map, length_fmap, length_seq in Hin. done.
  - by eapply (Forall2_lookup_lr _ _ _ _ _ _ Htop).
Qed.

(** C9: the document-topic table has one row per document and no other.
    For every document, at position [i] of the corpus with label [l], row
    [i] of the table carries the label [l], and its majority-topic label
    is the 1-based argmax column of row [i] of [W] and lies between 1 and
    the number of topics. *)
Theorem majority_topic_is_argmax (corpus : frame L C) tfidf feats
    n_topics n_words max_iter df_pretty W_df H_df i l doc :
  nmf_topic_modeling get_nmf topic_table corpus tfidf feats n_topics n_words max_iter
  = Ok (df_pretty, W_df, H_df) →
  corpus !! i = Some (l, doc) →
  length (rows W_df) = length corpus
  ∧ ∃ r w, rows W_df !! i = Some (l, r)
           ∧ (get_nmf tfidf n_topics max_iter).1 !! i = Some w
           ∧ (1 ≤ majority_topic r ≤ n_topics)%nat
           ∧ is_argmax w (majority_topic r - 1).
Proof.
  intros Hrun Hi.
  destruct (nmf_topic_modeling_rows _ _ _ _ _ _ _ _ _ Hrun) as [Hlen Hrows].
  split; [done|].
  destruct (lookup_lt_is_Some_2 (rows W_df) i) as [[l' r] Hr].
  { rewrite Hlen. by eapply lookup_lt_Some. }
  destruct (Hrows i l' r Hr) as (w & k & Hw & Hl & Hlw & Hk & _ & Hm).
  assert (l' = l) as ->.
  { unfold index in Hl. rewrite list_lookup_fmap, Hi in Hl. by injection Hl. }
  apply argmax_spec in Hk as [Hk Hlt].
  exists r, w. rewrite Hm. replace (k + 1 - 1) with k by lia.
  split; [done|]. split; [done|]. split; [lia|done].
Qed.

(** The call succeeds, and so labels every document, whenever the
    factorisation has the shape asked for. *)
Lemma nmf_topic_modeling_total (corpus : frame L C) tfidf feats
    n_topics n_words max_iter :
  let WH := get_nmf tfidf n_topics max_iter in
  0 < n_topics →
  length WH.1 = length corpus →
  Forall (λ w, length w = n_topics) WH.1 →
  length WH.2 = n_topics →
  Forall (λ h, length h = length feats) WH.2 →
  ∃ out, nmf_topic_modeling get_nmf topic_table corpus tfidf feats
           n_topics n_words max_iter = Ok out.
Proof.
  unfold nmf_topic_modeling.
  destruct (get_nmf tfidf n_topics max_iter) as [W H]. simpl.
  intros Hpos HlenW HW HlenH HH.
  assert (Htop : ∃ topics, document_topics W = Ok topics).
  { unfold document_topics. clear HlenW.
    induction W as [|w W IH]; simpl; [by eexists|].
    apply Forall_cons in HW as [Hw HW].
    destruct (argmax_total w) as [k ->]; [lia|]. simpl.
    destruct (IH HW) as [ks ->]. simpl. by eexists. }
  destruct Htop as [topics Htop]. rewrite Htop. simpl.
  apply mapM_result_Forall2, Forall2_length in Htop.
  rewrite bool_decide_true by lia. simpl.
  unfold DataFrame.
  rewrite bool_decide_true; [simpl|].
  - rewrite bool_decide_true; [simpl; by eexists|].
    split.
    + unfold index. by rewrite !length_fmap.
    + apply Forall_fmap. eapply Forall_impl; [exact HW|].
      intros w Hw. simpl. by rewrite length_map, length_fmap, length_seq.
  - split.
    + by rewrite !length_fmap, length_seq.
    + apply Forall_fmap. eapply Forall_impl; [exact HH|].
      intros h Hh. simpl. by rewrite length_map.
Qed.
End nmf_facts.

Lemma majority_topic_is_argmax_witness :
  length (rows Samples.sample_W_df) = length Samples.sample_corpus
  ∧ ∃ r w, rows Samples.sample_W_df !! 0 = Some ("Royal Arch Trail", r)
           ∧ (Samples.sample_nmf [] 2 250).1 !! 0 = Some w
           ∧ (1 ≤ majority_topic r ≤ 2)%nat
           ∧ is_argmax w (majority_topic r - 1).
Proof.
  apply (majority_topic_is_argmax Samples.sample_nmf Samples.sample_topic_table
           Samples.sample_corpus [] Samples.sample_feats 2 10 250 tt
           Samples.sample_W_df Samples.sample_H_df
           0 "Royal Arch Trail" "steep rocky arch views").
  - vm_compute. reflexivity.
  - reflexivity.
Defined.

End TopicsFacts.

(** ** Feature Fusion *)

Module FusionFacts.
Import Corpus Topics Fusion TopicsFacts Samples.


Section merge_facts.
Context `{EqDecision L} {A B : Type}.
Implicit Types (left : frame L A) (right : frame L B).

(** The rows of [right] that one row of [left] joins with. *)
Definition matches (p : L * A) right : frame L (A * B) :=
  q ← right; if decide (p.1 = q.1) then [(p.1, (p.2, q.2))] else [].

Lemma merge_cons p left right :
  merge (p :: left) right = matches p right ++ merge left right.
Proof. reflexivity. Qed.




Lemma elem_of_matches p right l a b :
  (l, (a, b)) ∈ matches p right ↔ p = (l, a) ∧ (l, b) ∈ right.
Proof.
  unfold matches. rewrite list_elem_of_bind. split.
  - intros ([l' b'] & Hin & Hq). simpl in Hin.
    destruct (decide (p.1 = l')) as [<-|]; [|by apply elem_of_nil in Hin].
    apply list_elem_of_singleton in Hin as [= -> -> ->].
    by destruct p.
  - intros [-> Hin]. exists (l, b). simpl.
    rewrite decide_True by done. split; [apply list_elem_of_singleton|]; done.
Qed.

Lemma elem_of_merge left right l a b :
  (l, (a, b)) ∈ merge left right ↔ (l, a) ∈ left ∧ (l, b) ∈ right.
Proof.
  induction left as [|p left IH].
  - split; [by intros ?%elem_of_nil | by intros [?%elem_of_nil _]].
  - rewrite merge_cons, elem_of_app, elem_of_matches, IH, elem_of_cons.
    split.
    + intros [[-> Hb]|[Ha Hb]]; auto.
    + intros [[->|Ha] Hb]; auto.
Qed.




End merge_facts.

Section fusion_facts.
Context `{EqDecision L} {N : Type}.
Variable numeric_columns : list string.



Lemma elem_of_fuse (df_hike : frame L (hike_row N)) (W_df : loadings L W_row) l fr :
  (l, fr) ∈ rows (fuse numeric_columns df_hike W_df) →
  ∃ h w dums, (l, h) ∈ df_hike ∧ (l, w) ∈ rows W_df
              ∧ features fr = h_numeric h ++ topic_loadings w ++ dums.
Proof.
  unfold fuse. simpl. intros Hin.
  apply list_elem_of_fmap in Hin as ([l' [h w]] & [= -> ->] & Hin).
  simpl. apply elem_of_merge in Hin as [Hh Hw].
  exists h, w. eexists. split; [done|]. split; [done|]. reflexivity.
Qed.
End fusion_facts.

Section rounding_facts.
Context `{EqDecision L} {N P C : Type}.
Variable get_nmf : list (list Q) → nat → nat → list (list Q) * list (list Q).
Variable topic_table : list (list Q) → list string → nat → P.

(** C5 (as the code has it): the topic loadings that reach Feature Fusion
    are the rows of [W] rounded to two decimals, the same table that is
    shown to a reader; each fused feature vector holds the rounded
    loadings of its trail's document between the numeric attributes and
    the indicator columns. *)
Theorem fusion_is_fed_rounded_loadings (corpus : frame L C) tfidf feats
    n_topics n_words max_iter df_pretty W_df H_df
    numeric_columns (df_hike : frame L (hike_row N)) j l fr :
  nmf_topic_modeling get_nmf topic_table corpus tfidf feats n_topics n_words max_iter
  = Ok (df_pretty, W_df, H_df) →
  rows (fuse numeric_columns df_hike W_df) !! j = Some (l, fr) →
  ∃ i w h dums,
    (get_nmf tfidf n_topics max_iter).1 !! i = Some w
    ∧ index corpus !! i = Some l
    ∧ (l, h) ∈ df_hike
    ∧ features fr = h_numeric h ++ (round2 <$> w) ++ dums.
Proof.
  intros Hrun Hin. apply list_elem_of_lookup_2 in Hin.
  destruct (nmf_topic_modeling_rows _ _ _ _ _ _ _ _ _ _ _ Hrun) as [_ Hrows].
  apply elem_of_fuse in Hin as (h & r & dums & Hh & Hr & Hfeat).
  apply list_elem_of_lookup in Hr as [i Hi].
  destruct (Hrows i l r Hi) as (w & k & Hw & Hl & _ & _ & Hround & _).
  exists i, w, h, dums. rewrite Hfeat, Hround. done.
Qed.
End rounding_facts.

Lemma sample_topics_run : sample_topics = Ok (tt, sample_W_df, sample_H_df).
Proof. vm_compute. reflexivity. Qed.

Lemma fusion_is_fed_rounded_loadings_witness :
  ∃ i w h dums,
    (sample_nmf [] 2 250).1 !! i = Some w
    ∧ index sample_corpus !! i = Some "Royal Arch Trail"
    ∧ ("Royal Arch Trail", h) ∈ sample_hikes
    ∧ [1400; 7 # 2; 9 # 2; 3 # 25; 22 # 25; 1; 0; 1; 0]%Q
      = h_numeric h ++ (round2 <$> w) ++ dums.
Proof.
  apply (fusion_is_fed_rounded_loadings sample_nmf sample_topic_table
           sample_corpus [] sample_feats 2 10 250 tt sample_W_df sample_H_df
           sample_numeric_columns sample_hikes 0 "Royal Arch Trail"
           (FusedRow tt [1400; 7 # 2; 9 # 2; 3 # 25; 22 # 25; 1; 0; 1; 0]%Q)).
  - vm_compute. reflexivity.
  - vm_compute. reflexivity.
Defined.

(** C5 (as stated, fails): the factorisation gives the first document the
    loadings 0.123 and 0.877; what [nmf_topic_modeling] hands on, and what
    ends up in the trail's fused feature vector, is 0.12 and 0.88. *)
Lemma fusion_is_not_fed_unrounded :
  sample_topics = Ok (tt, sample_W_df, sample_H_df)
  ∧ (sample_nmf [] 2 250).1 !! 0 = Some [123 # 1000; 877 # 1000]%Q
  ∧ rows sample_W_df !! 0
    = Some ("Royal Arch Trail", WRow [3 # 25; 22 # 25]%Q 2)
  ∧ rows (fuse sample_numeric_columns sample_hikes sample_W_df) !! 0
    = Some ("Royal Arch Trail",
            FusedRow tt [1400; 7 # 2; 9 # 2; 3 # 25; 22 # 25; 1; 0; 1; 0]%Q)
  ∧ ¬ (3 # 25 == 123 # 1000)%Q
  ∧ ¬ (22 # 25 == 877 # 1000)%Q.
Proof.
  split; [apply sample_topics_run|].
  do 3 (split; [vm_compute; reflexivity|]).
  split; intros Heq; vm_compute in Heq; discriminate.
Qed.



End FusionFacts.

(** ** Similarity Engine *)

Module SortFacts.
Import Engine TopicsFacts.

(** Order by value, then by position: what a stable ascending sort of the
    positions produces. *)
Definition lex_lt (v : list Q) (a b : nat) : Prop :=
  (nth a v 0 < nth b v 0)%Q ∨ ((nth a v 0 == nth b v 0)%Q ∧ a < b).

Lemma lex_lt_le v a b : lex_lt v a b → (nth a v 0 <= nth b v 0)%Q.
Proof.
  intros [Hlt|[Heq _]]; [by apply Qlt_le_weak|].
  rewrite Heq. apply Qle_refl.
Qed.

Lemma insert_idx_perm v i s : insert_idx v i s ≡ₚ i :: s.
Proof.
  induction s as [|j s IH]; simpl; [done|].
  destruct (Topics.Qltb _ _); [done|].
  rewrite IH. apply perm_swap.
Qed.

Lemma insert_idx_sorted v i s :
  Forall (λ j, j < i) s →
  StronglySorted (lex_lt v) s →
  StronglySorted (lex_lt v) (insert_idx v i s).
Proof.
  intros Hlt Hs. induction Hs as [|j s Hs IH Hj]; simpl.
  - repeat constructor.
  - apply Forall_cons in Hlt as [Hji Hlt].
    destruct (Topics.Qltb (nth i v 0%Q) (nth j v 0%Q)) eqn:Hcmp.
    + apply Qltb_lt in Hcmp. constructor; [by constructor|].
      constructor; [by left|].
      eapply Forall_impl; [exact Hj|]. intros k Hk. left.
      eapply Qlt_le_trans; [exact Hcmp|]. by apply lex_lt_le.
    + apply Qltb_ge in Hcmp. constructor; [by apply IH|].
      rewrite insert_idx_perm. constructor; [|done].
      apply Qle_lt_or_eq in Hcmp as [?|?]; [by left|by right].
Qed.

Lemma insertion_from_spec v k n s :
  Forall (λ j, j < k) s →
  StronglySorted (lex_lt v) s →
  let r := foldl (λ sorted i, insert_idx v i sorted) s (seq k n) in
  r ≡ₚ s ++ seq k n ∧ StronglySorted (lex_lt v) r.
Proof.
  revert k s. induction n as [|n IH]; intros k s Hlt Hs; simpl.
  - by rewrite app_nil_r.
  - destruct (IH (S k) (insert_idx v k s)) as [Hp Hsorted].
    + rewrite insert_idx_perm. constructor; [lia|].
      eapply Forall_impl; [exact Hlt|]. simpl. lia.
    + by apply insert_idx_sorted.
    + split; [|done]. rewrite Hp, insert_idx_perm.
      simpl. apply Permutation_middle.
Qed.

Lemma insertion_argsort_perm v : insertion_argsort v ≡ₚ seq 0 (length v).
Proof.
  unfold insertion_argsort.
  by destruct (insertion_from_spec v 0 (length v) []) as [Hp _];
    [constructor|constructor|].
Qed.

Lemma insertion_argsort_lex v : StronglySorted (lex_lt v) (insertion_argsort v).
Proof.
  unfold insertion_argsort.
  by destruct (insertion_from_spec v 0 (length v) []) as [_ Hs];
    [constructor|constructor|].
Qed.

Lemma StronglySorted_lookup {A} (R : relation A) l i j a b :
  StronglySorted R l → i < j → l !! i = Some a → l !! j = Some b → R a b.
Proof.
  intros Hs. revert i j. induction Hs as [|x l Hs IH Hx]; intros i j Hij Hi Hj.
  - done.
  - destruct j as [|j]; [lia|]. simpl in Hj.
    destruct i as [|i]; simpl in Hi.
    + injection Hi as ->. rewrite Forall_forall in Hx. apply Hx.
      by eapply list_elem_of_lookup_2.
    + apply (IH i j); [lia|done..].
Qed.

Lemma insertion_argsort_sorted v i j a b x y :
  i < j → insertion_argsort v !! i = Some a → insertion_argsort v !! j = Some b →
  v !! a = Some x → v !! b = Some y → (x <= y)%Q.
Proof.
  intros Hij Hi Hj Ha Hb.
  pose proof (StronglySorted_lookup _ _ _ _ _ _ (insertion_argsort_lex v) Hij Hi Hj)
    as Hlex%lex_lt_le.
  by rewrite (nth_lookup_Some _ _ _ _ Ha), (nth_lookup_Some _ _ _ _ Hb) in Hlex.
Qed.

(** The insertion sort as an instance of the contract; it is numpy's
    default sort on the arrays of at most 16 elements, and is used below
    on such arrays only. *)
#[export] Instance numpy_small : Argsort := {|
  argsort := insertion_argsort;
  argsort_perm := insertion_argsort_perm;
  argsort_sorted := insertion_argsort_sorted
|}.

Lemma numpy_small_stable : @stable numpy_small.
Proof.
  intros v i j a b x y Hij Hi Hj Ha Hb Heq. simpl in Hi, Hj.
  pose proof (StronglySorted_lookup _ _ _ _ _ _ (insertion_argsort_lex v) Hij Hi Hj)
    as [Hlt|[_ Hlt]]; [|done].
  rewrite (nth_lookup_Some _ _ _ _ Ha), (nth_lookup_Some _ _ _ _ Hb) in Hlt.
  rewrite Heq in Hlt. by apply Qlt_irrefl in Hlt.
Qed.

End SortFacts.

Module EngineFacts.
Import Engine SortFacts.

(** For a start and a count that are not negative, the slice
    [l[a : n + a]] skips [a] items and takes the next [n]. *)
Lemma py_slice_nonneg {A} (a n : Z) (l : list A) :
  (0 ≤ a)%Z → (0 ≤ n)%Z →
  py_slice a (n + a) l = take (Z.to_nat n) (drop (Z.to_nat a) l).
Proof.
  intros Ha Hn. unfold py_slice.
  destruct (Z.ltb_spec a 0) as [?|_]; [lia|].
  destruct (Z.ltb_spec (n + a) 0) as [?|_]; [lia|].
  destruct (decide (a ≤ Z.of_nat (length l))%Z) as [Hin|Hout].
  - rewrite (Z.min_l a) by lia.
    destruct (decide (n + a ≤ Z.of_nat (length l))%Z) as [Hfit|Hover].
    + rewrite Z.min_l by lia. do 2 f_equal. lia.
    + rewrite Z.min_r by lia.
      rewrite !take_ge; [done|rewrite length_drop; lia..].
  - rewrite !Z.min_r by lia. rewrite Z.sub_diag. simpl.
    rewrite (drop_ge l (Z.to_nat a)) by lia. by rewrite take_nil.
Qed.

(** *** The ranking both modes slice: positions by descending score *)

Section ranking.
Context `{Argsort}.

Definition ranking (v : list Q) : list nat := reverse (argsort v).

Lemma ranking_perm v : ranking v ≡ₚ seq 0 (length v).
Proof. unfold ranking. rewrite reverse_Permutation. apply argsort_perm. Qed.

Lemma ranking_length v : length (ranking v) = length v.
Proof. by rewrite ranking_perm, length_seq. Qed.

Lemma ranking_NoDup v : NoDup (ranking v).
Proof. rewrite ranking_perm. apply NoDup_seq. Qed.

Lemma ranking_elem_of v a : a ∈ ranking v ↔ a < length v.
Proof. rewrite ranking_perm, elem_of_seq. lia. Qed.

Lemma ranking_lookup_lt v i a : ranking v !! i = Some a → a < length v.
Proof. intros Hi. apply ranking_elem_of. by eapply list_elem_of_lookup_2. Qed.

Lemma ranking_argsort v i j a b :
  i < j → ranking v !! i = Some a → ranking v !! j = Some b →
  ∃ i' j', j' < i' ∧ argsort v !! i' = Some a ∧ argsort v !! j' = Some b.
Proof.
  unfold ranking. intros Hij [Hi Hil]%reverse_lookup_Some [Hj Hjl]%reverse_lookup_Some.
  eexists _, _. split; [|done]. lia.
Qed.

(** Scores never increase along the ranking. *)
Lemma ranking_desc v i j a b x y :
  i < j → ranking v !! i = Some a → ranking v !! j = Some b →
  v !! a = Some x → v !! b = Some y → (y <= x)%Q.
Proof.
  intros Hij Hi Hj Ha Hb.
  destruct (ranking_argsort v i j a b Hij Hi Hj) as (i' & j' & Hlt & Hi' & Hj').
  by eapply (argsort_sorted v j' i' b a).
Qed.

(** When the sort keeps the ties of [v], equal scores come out with the
    later row first. *)
Lemma ranking_ties v i j a b x y :
  keeps_ties v →
  i < j → ranking v !! i = Some a → ranking v !! j = Some b →
  v !! a = Some x → v !! b = Some y → (x == y)%Q → b < a.
Proof.
  intros Hstable Hij Hi Hj Ha Hb Heq.
  destruct (ranking_argsort v i j a b Hij Hi Hj) as (i' & j' & Hlt & Hi' & Hj').
  by eapply (Hstable j' i' b a).
Qed.

End ranking.

(** *** Running the recommendation functions *)

(** The state the script leaves behind for the queries: [hikes] and the
    labels of [similarity_df] are the index of [df_merged], whose names
    are unique; the similarity table is square; [X] has one row per trail;
    every trail has a url. *)
Definition loaded (g : globals) : Prop :=
  NoDup (hikes g)
  ∧ df_merged_index g = hikes g
  ∧ index (similarity_df g) = hikes g
  ∧ Forall (λ p, length p.2 = length (hikes g)) (similarity_df g)
  ∧ length (data (X g)) = length (hikes g)
  ∧ Forall (λ x, length x = shape1 (X g)) (data (X g))
  ∧ Forall (λ h, is_Some (hike_url_dict g !! h)) (hikes g).

#[export] Instance loaded_dec g : Decision (loaded g).
Proof. unfold loaded. apply _. Defined.

(** The line printed for the trail at position [i]. *)
Definition rec_line (g : globals) (i : nat) : option string :=
  h ← hikes g !! i; u ← hike_url_dict g !! h; Some (h +:+ ": " +:+ u).

Definition header (liked : string) : string :=
  "Because you enjoyed " +:+ liked +:+ ", you may like these:"
  +:+ String newline "".

Lemma bind_run {A B} (m : py A) (f : A → py B) w :
  (m ≫= f) w
  = match m w with (Ok a, w') => f a w' | (Raise e, w') => (Raise e, w') end.
Proof. reflexivity. Qed.

Lemma mapM_getitem_run {A} (l : list A) idx xs w :
  Forall2 (λ i x, l !! i = Some x) idx xs →
  mapM (getitem l) idx w = (Ok xs, w).
Proof.
  induction 1 as [|i x idx xs Hi _ IH]; [done|].
  simpl. rewrite bind_run. unfold getitem at 1. rewrite Hi. simpl.
  rewrite bind_run, IH. done.
Qed.

Lemma print_recs_run g hikes_ idx recs lines out :
  Forall2 (λ i h, hikes_ !! i = Some h) idx recs →
  Forall2 (λ h line, ∃ u, hike_url_dict g !! h = Some u
                          ∧ line = h +:+ ": " +:+ u) recs lines →
  print_recs hikes_ idx recs (World g out) = (Ok (), World g (out ++ lines)).
Proof.
  intros Hrecs Hlines. unfold print_recs. rewrite bind_run. simpl.
  rewrite bind_run.
  match goal with |- context [mapM ?f _] => set (body := f) end.
  assert (Hloop : mapM body (zip idx recs) (World g out)
                  = (Ok (replicate (length idx) ()), World g (out ++ lines))).
  { revert out lines Hlines.
    induction Hrecs as [|i h idx recs Hi _ IH]; intros out lines Hlines.
    - apply Forall2_nil_inv_l in Hlines as ->. by rewrite app_nil_r.
    - apply Forall2_cons_inv_l in Hlines as (line & lines' & (u & Hu & ->) & Hl & ->).
      simpl. rewrite bind_run. unfold body at 1. simpl.
      rewrite bind_run. unfold getitem. rewrite Hi. simpl.
      rewrite bind_run. unfold dict_getitem. rewrite Hu. simpl.
      rewrite bind_run, (IH _ _ Hl). simpl.
      by rewrite <- app_assoc. }
  by rewrite Hloop.
Qed.

Lemma recommend_run g hikes_ idx hdr lines out :
  hikes_ = hikes g →
  Forall2 (λ i line, rec_line g i = Some line) idx lines →
  (recs ← mapM (getitem hikes_) idx;
   _ ← print hdr;
   print_recs hikes_ idx recs) (World g out)
  = (Ok (), World g (out ++ hdr :: lines)).
Proof.
  intros -> Hlines.
  assert (∃ recs, Forall2 (λ i h, hikes g !! i = Some h) idx recs
            ∧ Forall2 (λ h line, ∃ u, hike_url_dict g !! h = Some u
                                      ∧ line = h +:+ ": " +:+ u) recs lines)
    as (recs & Hrecs & Hurls).
  { induction Hlines as [|i line idx lines Hi _ (recs & Hrecs & Hurls)].
    - exists []. split; constructor.
    - unfold rec_line in Hi.
      destruct (hikes g !! i) as [h|] eqn:Hh; [|done]. simpl in Hi.
      destruct (hike_url_dict g !! h) as [u|] eqn:Hu; [|done].
      injection Hi as <-. exists (h :: recs).
      split; constructor; eauto. }
  rewrite bind_run, (mapM_getitem_run _ _ _ _ Hrecs).
  rewrite bind_run. simpl.
  rewrite (print_recs_run _ _ _ _ _ _ Hrecs Hurls).
  by rewrite <- app_assoc.
Qed.

Lemma rec_lines_exist g idx :
  loaded g → Forall (λ i, i < length (hikes g)) idx →
  ∃ lines, Forall2 (λ i line, rec_line g i = Some line) idx lines.
Proof.
  intros (_ & _ & _ & _ & _ & _ & Hurls) Hidx.
  induction Hidx as [|i idx Hi _ [lines Hlines]]; [by exists []|].
  apply lookup_lt_is_Some_2 in Hi as [h Hh].
  rewrite Forall_forall in Hurls.
  destruct (Hurls h) as [u Hu]; [by eapply list_elem_of_lookup_2|].
  exists ((h +:+ ": " +:+ u) :: lines). constructor; [|done].
  unfold rec_line. rewrite Hh. simpl. by rewrite Hu.
Qed.

Lemma loc_run (df : frame string (list Q)) s seed row w :
  NoDup (index df) → df !! s = Some (seed, row) →
  loc df seed w = (Ok row, w).
Proof.
  intros Hnd Hs. unfold loc.
  assert (Hfind : list_find (λ p, p.1 = seed) df = Some (s, (seed, row))).
  { apply list_find_Some. split; [done|]. split; [done|].
    intros j [seed' row'] Hj Hlt Heq. simpl in Heq. subst seed'.
    assert (j = s); [|lia].
    apply (NoDup_lookup _ _ _ seed Hnd); unfold index;
      rewrite list_lookup_fmap; [by rewrite Hj|by rewrite Hs]. }
  by rewrite Hfind.
Qed.

Lemma loc_missing (df : frame string (list Q)) seed w :
  seed ∉ index df → loc df seed w = (Raise (KeyError seed), w).
Proof.
  intros Hnin. unfold loc.
  assert (Hfind : list_find (λ p, p.1 = seed) df = None).
  { apply list_find_None, Forall_forall. intros p Hp Heq. apply Hnin.
    unfold index. apply list_elem_of_fmap. by exists p. }
  by rewrite Hfind.
Qed.

Lemma where_eq_from (f : nat → nat) (hikes_ : list string) name :
  (name ∉ hikes_ →
   filter (λ p, p.2 = name) (imap (λ j x, (f j, x)) hikes_) = [])
  ∧ (name ∈ hikes_ →
     ∃ i, hikes_ !! i = Some name
          ∧ (filter (λ p, p.2 = name) (imap (λ j x, (f j, x)) hikes_)).*1 !! 0
            = Some (f i)).
Proof.
  revert f. induction hikes_ as [|h hikes_ IH]; intros f.
  - split; [done|]. by intros ?%elem_of_nil.
  - rewrite imap_cons, filter_cons. simpl.
    destruct (IH (f ∘ S)) as [IHout IHin].
    destruct (decide (h = name)) as [->|Hne].
    + split; [intros Hnin; exfalso; apply Hnin; left|].
      intros _. by exists 0.
    + split.
      * intros [_ Hnin]%not_elem_of_cons. by apply IHout.
      * intros [->|Hin]%elem_of_cons; [done|].
        destruct (IHin Hin) as (i & Hi & Hhead). by exists (S i).
Qed.

(** [np.where(hikes == i)[0]] is empty for a name that is not a trail. *)
Lemma where_eq_missing hikes_ name : name ∉ hikes_ → where_eq hikes_ name = [].
Proof.
  intros Hnin. unfold where_eq.
  change (imap pair hikes_) with (imap (λ j x, (id j, x)) hikes_).
  by rewrite (proj1 (where_eq_from id hikes_ name) Hnin).
Qed.

Lemma where_eq_found hikes_ name :
  name ∈ hikes_ →
  ∃ i, hikes_ !! i = Some name ∧ where_eq hikes_ name !! 0 = Some i.
Proof. intros Hin. apply (proj2 (where_eq_from id hikes_ name) Hin). Qed.

(** The elementwise sum of a list of vectors of dimension [d], as the spec
    words it: component [j] is the sum of the [j]-th components. *)
Definition elementwise_sum (d : nat) (vs : list (list Q)) : list Q :=
  (λ j, foldl Qplus 0%Q ((λ v, nth j v 0%Q) <$> vs)) <$> seq 0 d.

Lemma foldl_vadd (d : nat) (acc : list Q) (vs : list (list Q)) :
  length acc = d → Forall (λ v, length v = d) vs →
  foldl vadd acc vs
  = (λ j, foldl Qplus (nth j acc 0%Q) ((λ v, nth j v 0%Q) <$> vs)) <$> seq 0 d.
Proof.
  revert acc. induction vs as [|v vs IH]; intros acc Hacc Hvs; simpl.
  - apply list_eq. intros j. rewrite list_lookup_fmap.
    destruct (decide (j < d)) as [Hj|Hj].
    + rewrite lookup_seq_lt by done. simpl.
      destruct (nth_lookup_or_length acc j 0%Q) as [->|?]; [done|lia].
    + rewrite lookup_seq_ge by lia. simpl. apply lookup_ge_None. lia.
  - apply Forall_cons in Hvs as [Hv Hvs].
    rewrite IH; [|unfold vadd; rewrite length_zip_with; lia|done].
    apply list_fmap_ext. intros i j [Hij Hj]%lookup_seq.
    simpl in Hij. subst i. simpl. f_equal.
    unfold vadd. rewrite !nth_lookup, lookup_zip_with.
    destruct (lookup_lt_is_Some_2 acc j) as [a ->]; [lia|].
    destruct (lookup_lt_is_Some_2 v j) as [b ->]; [lia|]. done.
Qed.

(** The loop of [_get_user_profile] computes the elementwise sum. *)
Lemma vadd_elementwise_sum (d : nat) (vs : list (list Q)) :
  Forall (λ v, length v = d) vs →
  foldl vadd (zeros d) vs = elementwise_sum d vs.
Proof.
  intros Hvs.
  rewrite (foldl_vadd d); [|unfold zeros; by rewrite length_replicate|done].
  apply list_fmap_ext. intros i j [Hij Hj]%lookup_seq.
  simpl in Hij. subst i. simpl. f_equal.
  unfold zeros. by rewrite nth_lookup, lookup_replicate_2.
Qed.

Section profile.
Context `{Argsort}.
Variable cosine_similarity : list Q → list Q → Q.

Lemma profile_loop_run g out (acc : py (list Q)) u items vecs :
  acc (World g out) = (Ok u, World g out) →
  Forall2 (λ item v, ∃ i, where_eq (hikes g) item !! 0 = Some i
                          ∧ data (X g) !! i = Some v) items vecs →
  foldl (λ acc i,
           user_profile ← acc;
           idx ← getitem (where_eq (hikes g) i) 0;
           x ← getitem (data (X g)) idx;
           mret (vadd user_profile x)) acc items (World g out)
  = (Ok (foldl vadd u vecs), World g out).
Proof.
  intros Hacc Hvecs. revert acc u Hacc.
  induction Hvecs as [|item v items vecs (i & Hi & Hv) _ IH]; intros acc u Hacc.
  - done.
  - simpl. apply IH.
    rewrite bind_run, Hacc, bind_run. unfold getitem at 1. rewrite Hi. simpl.
    rewrite bind_run. unfold getitem. by rewrite Hv.
Qed.

Lemma liked_vectors_exist g items :
  loaded g → Forall (λ i, i ∈ hikes g) items →
  ∃ vecs,
    Forall2 (λ item v, ∃ i, hikes g !! i = Some item
                            ∧ where_eq (hikes g) item !! 0 = Some i
                            ∧ data (X g) !! i = Some v) items vecs
    ∧ Forall (λ v, length v = shape1 (X g)) vecs.
Proof.
  intros (_ & _ & _ & _ & HlenX & Hshape & _) Hitems.
  induction Hitems as [|item items Hin _ (vecs & Hvecs & Hlens)].
  - exists []. split; constructor.
  - destruct (where_eq_found _ _ Hin) as (i & Hi & Hw).
    destruct (lookup_lt_is_Some_2 (data (X g)) i) as [v Hv].
    { rewrite HlenX. by eapply lookup_lt_Some. }
    exists (v :: vecs). split; constructor; eauto.
    rewrite Forall_forall in Hshape. apply Hshape.
    by eapply list_elem_of_lookup_2.
Qed.

Lemma get_user_profile_run g out items vecs :
  Forall2 (λ item v, ∃ i, where_eq (hikes g) item !! 0 = Some i
                          ∧ data (X g) !! i = Some v) items vecs →
  _get_user_profile items (World g out)
  = (Ok (foldl vadd (zeros (shape1 (X g))) vecs), World g out).
Proof.
  intros Hvecs. unfold _get_user_profile.
  rewrite bind_run. simpl. rewrite bind_run. simpl.
  by apply profile_loop_run.
Qed.
End profile.

Section queries.
Context `{Argsort}.
Variable cosine_similarity : list Q → list Q → Q.

(** What a seed query does in a loaded state, for any count that is not
    negative: it prints the header and one line for each of the [n]
    positions after the first of the ranking of the seed's row. *)
Lemma seed_run g out seed n s row :
  loaded g → similarity_df g !! s = Some (seed, row) → (0 ≤ n)%Z →
  ∃ lines,
    Forall2 (λ i line, rec_line g i = Some line)
      (take (Z.to_nat n) (drop 1 (ranking row))) lines
    ∧ get_hike_recommendations seed n (World g out)
      = (Ok (), World g (out ++ header seed :: lines)).
Proof.
  intros Hg Hs Hn.
  pose proof Hg as (Hnd & Hidx & Hsim & Hsq & _).
  assert (Hrow : length row = length (hikes g)).
  { rewrite Forall_forall in Hsq.
    by apply (Hsq (seed, row)), list_elem_of_lookup_2 with s. }
  destruct (rec_lines_exist g (take (Z.to_nat n) (drop 1 (ranking row))) Hg)
    as [lines Hlines].
  { apply Forall_take, Forall_drop, Forall_forall.
    intros i Hi%ranking_elem_of. by rewrite <- Hrow. }
  exists lines. split; [done|].
  unfold get_hike_recommendations.
  rewrite bind_run. simpl.
  rewrite bind_run, (loc_run _ s seed row) by (by rewrite ?Hsim).
  rewrite bind_run. simpl.
  rewrite (py_slice_nonneg 1 n) by lia.
  by apply recommend_run.
Qed.

(** The same for a profile query. *)
Lemma profile_run g out items n :
  loaded g → Forall (λ i, i ∈ hikes g) items → (0 ≤ n)%Z →
  ∃ vecs lines,
    Forall2 (λ item v, ∃ i, hikes g !! i = Some item
                            ∧ data (X g) !! i = Some v) items vecs
    ∧ _get_user_profile items (World g out)
      = (Ok (elementwise_sum (shape1 (X g)) vecs), World g out)
    ∧ Forall2 (λ i line, rec_line g i = Some line)
        (take (Z.to_nat n)
           (drop (length items)
              (ranking ((λ x, cosine_similarity x
                                (elementwise_sum (shape1 (X g)) vecs))
                        <$> data (X g)))))
        lines
    ∧ get_user_recommendation cosine_similarity items n (World g out)
      = (Ok (), World g (out ++ header (String.concat ", " items) :: lines)).
Proof.
  intros Hg Hitems Hn.
  destruct (liked_vectors_exist g items Hg Hitems) as (vecs & Hvecs & Hlens).
  assert (Hprofile : _get_user_profile items (World g out)
            = (Ok (elementwise_sum (shape1 (X g)) vecs), World g out)).
  { rewrite <- vadd_elementwise_sum by done.
    apply get_user_profile_run.
    eapply Forall2_impl; [exact Hvecs|].
    intros item v (i & _ & Hw & Hv). eauto. }
  set (scores := (λ x, cosine_similarity x (elementwise_sum (shape1 (X g)) vecs))
                 <$> data (X g)).
  pose proof Hg as (_ & _ & _ & _ & HlenX & _).
  destruct (rec_lines_exist g
              (take (Z.to_nat n) (drop (length items) (ranking scores))) Hg)
    as [lines Hlines].
  { apply Forall_take, Forall_drop, Forall_forall.
    intros i Hi%ranking_elem_of.
    unfold scores in Hi. rewrite length_fmap in Hi. lia. }
  exists vecs, lines. split; [|split; [done|split; [done|]]].
  { eapply Forall2_impl; [exact Hvecs|].
    intros item v (i & Hi & _ & Hv). eauto. }
  unfold get_user_recommendation.
  rewrite bind_run, Hprofile. rewrite bind_run. simpl.
  rewrite bind_run. simpl.
  rewrite (py_slice_nonneg (Z.of_nat (length items)) n) by lia.
  rewrite Nat2Z.id. by apply recommend_run.
Qed.
End queries.

(** *** Positions of a slice of the ranking *)

Section slices.
Context `{Argsort}.

Lemma slice_lookup v k n i a :
  take n (drop k (ranking v)) !! i = Some a ↔
  ranking v !! (k + i) = Some a ∧ i < n.
Proof. by rewrite lookup_take_Some, lookup_drop. Qed.


Lemma slice_ties v k n i j a b x y :
  keeps_ties v → i < j →
  take n (drop k (ranking v)) !! i = Some a →
  take n (drop k (ranking v)) !! j = Some b →
  v !! a = Some x → v !! b = Some y → (x == y)%Q → b < a.
Proof.
  intros Hstable Hij [Hi _]%slice_lookup [Hj _]%slice_lookup.
  apply (ranking_ties v (k + i) (k + j)); [done|lia|done..].
Qed.

End slices.

Section claims.
Context `{Argsort}.
Variable cosine_similarity : list Q → list Q → Q.


(** C3: in a loaded state, for liked trails that are all known and a count
    that is not negative, the profile is the elementwise sum of the liked
    trails' rows of [X]; every trail is ranked by its cosine similarity to
    the profile, descending; the query prints the header and the trails at
    the [n] positions that follow the first [len(items)] positions of that
    ranking, with their urls.  The skip is by position only. *)
Theorem profile_recommendations g out items n :
  loaded g → Forall (λ i, i ∈ hikes g) items → (0 ≤ n)%Z →
  ∃ vecs lines,
    Forall2 (λ item v, ∃ i, hikes g !! i = Some item
                            ∧ data (X g) !! i = Some v) items vecs
    ∧ let profile := elementwise_sum (shape1 (X g)) vecs in
      let scores := (λ x, cosine_similarity x profile) <$> data (X g) in
      _get_user_profile items (World g out) = (Ok profile, World g out)
      ∧ ranking scores ≡ₚ seq 0 (length (hikes g))
      ∧ (∀ i j a b x y, i < j →
           ranking scores !! i = Some a → ranking scores !! j = Some b →
           scores !! a = Some x → scores !! b = Some y → (y <= x)%Q)
      ∧ Forall2 (λ i line, rec_line g i = Some line)
          (take (Z.to_nat n) (drop (length items) (ranking scores))) lines
      ∧ get_user_recommendation cosine_similarity items n (World g out)
        = (Ok (), World g (out ++ header (String.concat ", " items) :: lines)).
Proof.
  intros Hg Hitems Hn.
  destruct (profile_run cosine_similarity g out items n Hg Hitems Hn)
    as (vecs & lines & Hvecs & Hprofile & Hlines & Hrun).
  exists vecs, lines. split; [done|]. simpl.
  split; [done|]. split; [|split; [|done]].
  - rewrite ranking_perm, length_fmap.
    by destruct Hg as (_ & _ & _ & _ & -> & _).
  - intros i j a b x y. apply ranking_desc.
Qed.
End claims.

Section more_claims.
Context `{Argsort}.
Variable cosine_similarity : list Q → list Q → Q.

(** C6 (as the code has it): the code sorts ascending with the default
    [argsort] and reverses; it has no tie-break of its own.  On every
    query whose score vector the sort happens to leave with its ties in
    row order (no promise of the sort in general; its insertion sort does
    so on short arrays), two printed trails with equal scores come out
    with the later row first, in both modes: the reverse of the original
    row order. *)
Theorem ties_come_out_in_reverse_row_order g out seed n s row items m :
  loaded g →
  similarity_df g !! s = Some (seed, row) → (0 ≤ n)%Z →
  Forall (λ i, i ∈ hikes g) items → (0 ≤ m)%Z →
  keeps_ties row →
  (∀ profile, _get_user_profile items (World g out) = (Ok profile, World g out) →
     keeps_ties ((λ x, cosine_similarity x profile) <$> data (X g))) →
  (∃ idx lines,
     get_hike_recommendations seed n (World g out)
     = (Ok (), World g (out ++ header seed :: lines))
     ∧ Forall2 (λ i line, rec_line g i = Some line) idx lines
     ∧ ∀ i j a b x y, i < j → idx !! i = Some a → idx !! j = Some b →
         row !! a = Some x → row !! b = Some y → (x == y)%Q → b < a)
  ∧ (∃ profile idx lines,
       _get_user_profile items (World g out) = (Ok profile, World g out)
       ∧ get_user_recommendation cosine_similarity items m (World g out)
         = (Ok (), World g (out ++ header (String.concat ", " items) :: lines))
       ∧ Forall2 (λ i line, rec_line g i = Some line) idx lines
       ∧ ∀ i j a b x y, i < j → idx !! i = Some a → idx !! j = Some b →
           data (X g) !! a = Some x → data (X g) !! b = Some y →
           (cosine_similarity x profile == cosine_similarity y profile)%Q →
           b < a).
Proof.
  intros Hg Hs Hn Hitems Hm Hseed Hprof. split.
  - destruct (seed_run g out seed n s row Hg Hs Hn) as (lines & Hlines & Hrun).
    eexists _, lines. split; [done|]. split; [done|].
    intros i j a b x y. by apply slice_ties.
  - destruct (profile_run cosine_similarity g out items m Hg Hitems Hm)
      as (vecs & lines & _ & Hprofile & Hlines & Hrun).
    eexists _, _, lines. split; [done|]. split; [done|]. split; [done|].
    intros i j a b x y Hij Hi Hj Hx Hy.
    apply (slice_ties _ _ _ i j a b _ _ (Hprof _ Hprofile) Hij Hi Hj);
      by rewrite list_lookup_fmap, ?Hx, ?Hy.
Qed.

Lemma dot_zeros_r (x : list Q) (d : nat) : (dot x (zeros d) == 0)%Q.
Proof.
  unfold dot, zeros. revert d.
  induction x as [|a x IH]; intros [|d]; simpl; try reflexivity.
  rewrite IH. ring.
Qed.

Lemma norm2_nonzero (x : list Q) : ¬ (norm2 x == 0)%Q.
Proof.
  unfold norm2. destruct (Qeq_bool (dot x x) 0) eqn:Hx; [done|].
  by apply Qeq_bool_neq.
Qed.

(** scikit-learn's cosine of anything and a zero vector is zero. *)
Lemma cosine_zero_profile (x : list Q) (d : nat) (c : Q) :
  is_cosine x (zeros d) c → (c == 0)%Q.
Proof.
  unfold is_cosine. intros [Hsq _]%andb_prop_elim.
  apply Is_true_eq_true, Qeq_bool_iff in Hsq.
  rewrite (dot_zeros_r x d), Qmult_0_l in Hsq.
  apply Qmult_integral in Hsq as [Hcc|Hn].
  - by apply Qmult_integral in Hcc as [?|?].
  - apply Qmult_integral in Hn as [Hn|Hn]; by apply norm2_nonzero in Hn.
Qed.

(** C10 (as the code has it): with no liked items the loop of
    [_get_user_profile] never runs and the profile is the zero vector of
    [X.shape[1]] components.  The query is not rejected.  scikit-learn's
    cosine of every trail and that vector is the number zero (the zero
    norm counts as one, nothing is undefined), so all trails tie, and the
    query prints the header with no name in it and the first
    [min n trails] trails of the ranking of an all-zero score vector. *)
Theorem empty_profile_is_the_zero_vector g out n :
  loaded g → (0 ≤ n)%Z →
  let profile := zeros (shape1 (X g)) in
  let scores := (λ x, cosine_similarity x profile) <$> data (X g) in
  Forall (λ x, is_cosine x profile (cosine_similarity x profile)) (data (X g)) →
  _get_user_profile [] (World g out) = (Ok profile, World g out)
  ∧ Forall (λ score, (score == 0)%Q) scores
  ∧ ∃ lines,
      Forall2 (λ i line, rec_line g i = Some line)
        (take (Z.to_nat n) (ranking scores)) lines
      ∧ length lines = Nat.min (Z.to_nat n) (length (hikes g))
      ∧ get_user_recommendation cosine_similarity [] n (World g out)
        = (Ok (), World g (out ++ header "" :: lines)).
Proof.
  intros Hg Hn. simpl. intros Hcos. split; [done|]. split.
  { apply Forall_fmap. eapply Forall_impl; [exact Hcos|].
    intros x Hx. exact (cosine_zero_profile x _ _ Hx). }
  destruct (profile_run cosine_similarity g out [] n Hg) as
    (vecs & lines & Hvecs & _ & Hlines & Hrun); [constructor|done|].
  apply Forall2_nil_inv_l in Hvecs as ->.
  rewrite <- (vadd_elementwise_sum _ []) in Hlines by constructor.
  exists lines. split; [exact Hlines|]. split; [|exact Hrun].
  rewrite <- (Forall2_length _ _ _ Hlines).
  rewrite length_take, length_drop, ranking_length, length_fmap.
  destruct Hg as (_ & _ & _ & _ & -> & _). simpl. lia.
Qed.

(** An unknown seed makes [.loc] raise [KeyError] with the name; nothing
    is printed and the state is as before. *)
Lemma unknown_seed_raises_KeyError g out seed n :
  seed ∉ index (similarity_df g) →
  get_hike_recommendations seed n (World g out)
  = (Raise (KeyError seed), World g out).
Proof.
  intros Hnin. unfold get_hike_recommendations.
  rewrite bind_run. simpl. by rewrite bind_run, loc_missing.
Qed.

Lemma profile_loop_raises g out (acc : py (list Q)) e items :
  acc (World g out) = (Raise e, World g out) →
  foldl (λ acc i,
           user_profile ← acc;
           idx ← getitem (where_eq (hikes g) i) 0;
           x ← getitem (data (X g)) idx;
           mret (vadd user_profile x)) acc items (World g out)
  = (Raise e, World g out).
Proof.
  revert acc. induction items as [|item items IH]; intros acc Hacc; [done|].
  simpl. apply IH. by rewrite bind_run, Hacc.
Qed.

(** An unknown liked name makes [np.where(...)[0]] empty, and reading its
    item 0 raises [IndexError]: index 0, size 0.  Nothing is printed and
    the state is as before. *)
Lemma unknown_liked_raises_IndexError g out known item rest n :
  loaded g → Forall (λ i, i ∈ hikes g) known → item ∉ hikes g →
  get_user_recommendation cosine_similarity (known ++ item :: rest) n (World g out)
  = (Raise (IndexError 0 0), World g out).
Proof.
  intros Hg Hknown Hitem.
  destruct (liked_vectors_exist g known Hg Hknown) as (vecs & Hvecs & _).
  unfold get_user_recommendation. rewrite bind_run.
  assert (Hprofile : _get_user_profile (known ++ item :: rest) (World g out)
                     = (Raise (IndexError 0 0), World g out)).
  { unfold _get_user_profile. rewrite bind_run. simpl. rewrite bind_run. simpl.
    rewrite foldl_app. simpl. apply profile_loop_raises.
    rewrite bind_run.
    rewrite (profile_loop_run g out _ (zeros (shape1 (X g))) known vecs); [|done|].
    - rewrite bind_run. unfold getitem. by rewrite where_eq_missing.
    - eapply Forall2_impl; [exact Hvecs|].
      intros it v (i & _ & Hw & Hv). eauto. }
  by rewrite Hprofile.
Qed.
End more_claims.

(** *** The claims on concrete states *)

Import Samples.

Lemma sample_globals_loaded : loaded sample_globals.
Proof. apply (bool_decide_unpack _). vm_compute. exact I. Qed.

Lemma twin_globals_loaded : loaded twin_globals.
Proof. apply (bool_decide_unpack _). vm_compute. exact I. Qed.



(** The same holds whatever order the sort gives to equal scores: the two
    twins have the same row, hence the same ranking, and the trail printed
    for both is one of them. *)
Lemma some_twin_is_recommended_to_itself `{Argsort} :
  get_hike_recommendations "Royal Arch Trail" 1 (World twin_globals [])
  = (Ok (), World twin_globals
              [header "Royal Arch Trail"; "Royal Arch Trail: /trail/royal-arch"])
  ∨ get_hike_recommendations "Bear Creek Trail" 1 (World twin_globals [])
    = (Ok (), World twin_globals
                [header "Bear Creek Trail"; "Bear Creek Trail: /trail/bear-creek"]).
Proof.
  set (v := [1; 1; 0]%Q).
  pose proof (ranking_length v) as Hlen.
  destruct (lookup_lt_is_Some_2 (ranking v) 2) as [b Hb]; [rewrite Hlen; simpl; lia|].
  destruct (lookup_lt_is_Some_2 (ranking v) 1) as [a Ha]; [rewrite Hlen; simpl; lia|].
  assert (b = 2) as ->.
  { destruct (decide (b = 2)) as [|Hne]; [done|exfalso].
    assert (Hin : 2 ∈ ranking v) by (apply ranking_elem_of; simpl; lia).
    apply list_elem_of_lookup in Hin as [p Hp].
    assert (p < 2).
    { apply lookup_lt_Some in Hp as Hlt. rewrite Hlen in Hlt. simpl in Hlt.
      destruct (decide (p = 2)) as [->|]; [|lia]. congruence. }
    pose proof (ranking_lookup_lt v 2 b Hb) as Hblt. simpl in Hblt.
    assert (Hvb : v !! b = Some 1%Q)
      by (destruct b as [|[|[|b]]]; try done; lia).
    pose proof (ranking_desc v p 2 2 b 0%Q 1%Q ltac:(lia) Hp Hb eq_refl Hvb) as Hle.
    by vm_compute in Hle. }
  assert (a < 2) as Halt.
  { pose proof (ranking_lookup_lt v 1 a Ha) as Halt. simpl in Halt.
    destruct (decide (a = 2)) as [->|]; [|lia].
    by pose proof (NoDup_lookup _ _ _ _ (ranking_NoDup v) Ha Hb). }
  assert (Hidx : take (Z.to_nat 1) (drop 1 (ranking v)) = [a]).
  { apply list_eq. intros [|i]; simpl.
    - apply slice_lookup. split; [done|]. simpl. lia.
    - rewrite lookup_take_ge; [done|]. simpl. lia. }
  destruct a as [|[|a]]; [left|right|lia].
  - destruct (seed_run twin_globals [] "Royal Arch Trail" 1 0 v
                twin_globals_loaded eq_refl ltac:(lia)) as (lines & Hlines & ->).
    fold v in Hlines. rewrite Hidx in Hlines.
    apply Forall2_cons_inv_l in Hlines as (line & rest & Hline & Hrest & ->).
    apply Forall2_nil_inv_l in Hrest as ->.
    vm_compute in Hline. by injection Hline as <-.
  - destruct (seed_run twin_globals [] "Bear Creek Trail" 1 1 v
                twin_globals_loaded eq_refl ltac:(lia)) as (lines & Hlines & ->).
    fold v in Hlines. rewrite Hidx in Hlines.
    apply Forall2_cons_inv_l in Hlines as (line & rest & Hline & Hrest & ->).
    apply Forall2_nil_inv_l in Hrest as ->.
    vm_compute in Hline. by injection Hline as <-.
Qed.

Lemma profile_recommendations_witness :
  loaded sample_globals
  ∧ ∃ vecs lines,
      Forall2 (λ item v, ∃ i, hikes sample_globals !! i = Some item
                              ∧ data (X sample_globals) !! i = Some v)
        ["Royal Arch Trail"; "Bear Creek Trail"] vecs
      ∧ let profile := elementwise_sum (shape1 (X sample_globals)) vecs in
        let scores := (λ x, dot x profile) <$> data (X sample_globals) in
        _get_user_profile ["Royal Arch Trail"; "Bear Creek Trail"]
          (World sample_globals [])
        = (Ok profile, World sample_globals [])
        ∧ ranking scores ≡ₚ seq 0 (length (hikes sample_globals))
        ∧ (∀ i j a b x y, i < j →
             ranking scores !! i = Some a → ranking scores !! j = Some b →
             scores !! a = Some x → scores !! b = Some y → (y <= x)%Q)
        ∧ Forall2 (λ i line, rec_line sample_globals i = Some line)
            (take (Z.to_nat 1)
               (drop (length ["Royal Arch Trail"; "Bear Creek Trail"])
                  (ranking scores))) lines
        ∧ get_user_recommendation dot ["Royal Arch Trail"; "Bear Creek Trail"] 1
            (World sample_globals [])
          = (Ok (), World sample_globals
                      ([] ++ header (String.concat ", "
                                       ["Royal Arch Trail"; "Bear Creek Trail"])
                          :: lines)).
Proof.
  split; [apply (bool_decide_unpack _); vm_compute; exact I|].
  apply (profile_recommendations dot sample_globals []
           ["Royal Arch Trail"; "Bear Creek Trail"] 1).
  - apply (bool_decide_unpack _). vm_compute. exact I.
  - apply (bool_decide_unpack _). vm_compute. exact I.
  - discriminate.
Defined.

Lemma ties_come_out_in_reverse_row_order_witness :
  (∃ idx lines,
     get_hike_recommendations "Mesa Trail" 2 (World twin_globals [])
     = (Ok (), World twin_globals ([] ++ header "Mesa Trail" :: lines))
     ∧ Forall2 (λ i line, rec_line twin_globals i = Some line) idx lines
     ∧ ∀ i j a b x y, i < j → idx !! i = Some a → idx !! j = Some b →
         [0; 0; 1]%Q !! a = Some x → [0; 0; 1]%Q !! b = Some y →
         (x == y)%Q → b < a)
  ∧ (∃ profile idx lines,
       _get_user_profile ["Mesa Trail"] (World twin_globals [])
       = (Ok profile, World twin_globals [])
       ∧ get_user_recommendation dot ["Mesa Trail"] 2 (World twin_globals [])
         = (Ok (), World twin_globals
                     ([] ++ header (String.concat ", " ["Mesa Trail"]) :: lines))
       ∧ Forall2 (λ i line, rec_line twin_globals i = Some line) idx lines
       ∧ ∀ i j a b x y, i < j → idx !! i = Some a → idx !! j = Some b →
           data (X twin_globals) !! a = Some x →
           data (X twin_globals) !! b = Some y →
           (dot x profile == dot y profile)%Q → b < a).
Proof.
  apply (ties_come_out_in_reverse_row_order dot twin_globals [] "Mesa Trail" 2 2
           [0; 0; 1]%Q ["Mesa Trail"] 2).
  - apply (bool_decide_unpack _). vm_compute. exact I.
  - reflexivity.
  - discriminate.
  - apply (bool_decide_unpack _). vm_compute. exact I.
  - discriminate.
  - apply numpy_small_stable.
  - intros profile _. apply numpy_small_stable.
Defined.

(** C6 (as stated, fails): the first two trails score the same against the
    third (rows 0 and 1, both 0).  In both modes the query prints row 1
    before row 0: on an array of three scores numpy's sort is the
    insertion sort, which puts them in row order ascending, and the code
    reverses that. *)
Lemma ties_do_not_follow_row_order :
  hikes twin_globals = ["Royal Arch Trail"; "Bear Creek Trail"; "Mesa Trail"]
  ∧ similarity_df twin_globals !! 2 = Some ("Mesa Trail", [0; 0; 1]%Q)
  ∧ get_hike_recommendations "Mesa Trail" 2 (World twin_globals [])
    = (Ok (), World twin_globals
                [header "Mesa Trail"; "Bear Creek Trail: /trail/bear-creek";
                 "Royal Arch Trail: /trail/royal-arch"])
  ∧ ((λ x, dot x [0; 1]%Q) <$> data (X twin_globals)) = [0 # 1; 0 # 1; 1 # 1]%Q
  ∧ get_user_recommendation dot ["Mesa Trail"] 2 (World twin_globals [])
    = (Ok (), World twin_globals
                [header "Mesa Trail"; "Bear Creek Trail: /trail/bear-creek";
                 "Royal Arch Trail: /trail/royal-arch"]).
Proof. repeat split; vm_compute; reflexivity. Qed.

Lemma empty_profile_is_the_zero_vector_witness :
  let profile := zeros (shape1 (X sample_globals)) in
  let scores := (λ x, dot x profile) <$> data (X sample_globals) in
  _get_user_profile [] (World sample_globals [])
  = (Ok profile, World sample_globals [])
  ∧ Forall (λ score, (score == 0)%Q) scores
  ∧ ∃ lines,
      Forall2 (λ i line, rec_line sample_globals i = Some line)
        (take (Z.to_nat 2) (ranking scores)) lines
      ∧ length lines = Nat.min (Z.to_nat 2) (length (hikes sample_globals))
      ∧ get_user_recommendation dot [] 2 (World sample_globals [])
        = (Ok (), World sample_globals ([] ++ header "" :: lines)).
Proof.
  apply (empty_profile_is_the_zero_vector dot sample_globals [] 2).
  - apply (bool_decide_unpack _). vm_compute. exact I.
  - discriminate.
  - apply (bool_decide_unpack _). vm_compute. exact I.
Defined.

(** C10 (as stated, fails): the four sample trails have feature vectors of
    norm one, so scikit-learn's cosine of a trail and the empty profile is
    their inner product.  It is the number zero for every trail, not an
    undefined value, and the query prints two trails: the last two rows,
    the four scores being tied. *)
Lemma empty_profile_scores_are_zero :
  Forall (λ x, is_cosine x (zeros 2) (dot x (zeros 2))) (data (X sample_globals))
  ∧ Forall (λ score, Qeq_bool score 0)
      ((λ x, dot x (zeros 2)) <$> data (X sample_globals))
  ∧ get_user_recommendation dot [] 2 (World sample_globals [])
    = (Ok (), World sample_globals
                [header ""; "Hidden Lake Trail: /trail/hidden-lake";
                 "Mesa Trail: /trail/mesa"]).
Proof.
  split; [apply (bool_decide_unpack _); vm_compute; exact I|].
  split; [apply (bool_decide_unpack _); vm_compute; exact I|].
  vm_compute. reflexivity.
Qed.

(** C4 (code does not do this): a seed that is not a trail fails with a
    [KeyError] naming it, but a liked name that is not a trail fails with
    the out-of-range [IndexError] (index 0, size 0) of [np.where(...)[0][0]].
    In both cases nothing is printed and the state is left as it was. *)
Theorem unknown_liked_item_is_an_index_error :
  ("Lost Creek Trail" ∉ hikes sample_globals)
  ∧ get_hike_recommendations "Lost Creek Trail" 5 (World sample_globals [])
    = (Raise (KeyError "Lost Creek Trail"), World sample_globals [])
  ∧ get_user_recommendation dot ["Royal Arch Trail"; "Lost Creek Trail"] 5
      (World sample_globals [])
    = (Raise (IndexError 0 0), World sample_globals []).
Proof.
  assert (Hnin : "Lost Creek Trail" ∉ hikes sample_globals)
    by (apply (bool_decide_unpack _); vm_compute; exact I).
  split; [done|]. split.
  - by apply unknown_seed_raises_KeyError.
  - apply (unknown_liked_raises_IndexError dot sample_globals []
             ["Royal Arch Trail"] "Lost Creek Trail" [] 5);
      [apply sample_globals_loaded| |done].
    apply (bool_decide_unpack _). vm_compute. exact I.
Qed.

End EngineFacts.

(** * Further properties of the code *)

(** ** Corpus Builder: deduplication and disambiguation *)

Module CorpusMore.
Import Corpus.

(** [drop_duplicates_url] when some urls count as already seen. *)
Definition drop_seen {L N} (seen : list string) (df : frame L (row N))
    : frame L (row N) :=
  (filter (λ p, p.2 = false)
     (zip df (duplicated_from seen (url ∘ snd <$> df)))).*1.

Lemma drop_seen_nil {L N} (seen : list string) :
  drop_seen seen ([] : frame L (row N)) = [].
Proof. reflexivity. Qed.

Lemma drop_seen_cons {L N} (seen : list string) (p : L * row N) df :
  drop_seen seen (p :: df)
  = if decide (url p.2 ∈ seen) then drop_seen (url p.2 :: seen) df
    else p :: drop_seen (url p.2 :: seen) df.
Proof.
  unfold drop_seen. simpl. rewrite filter_cons. simpl.
  destruct (decide (url p.2 ∈ seen)) as [Hin|Hnin].
  - by rewrite bool_decide_true.
  - by rewrite bool_decide_false.
Qed.

Lemma drop_duplicates_url_seen {L N} (df : frame L (row N)) :
  drop_duplicates_url df = drop_seen [] df.
Proof. reflexivity. Qed.

Lemma drop_seen_sublist {L N} (seen : list string) (df : frame L (row N)) :
  drop_seen seen df `sublist_of` df.
Proof.
  revert seen. induction df as [|p df IH]; intros seen.
  - rewrite drop_seen_nil. constructor.
  - rewrite drop_seen_cons. case_decide.
    + by apply sublist_cons.
    + by apply sublist_skip.
Qed.

Lemma drop_seen_urls {L N} (seen : list string) (df : frame L (row N)) u :
  u ∈ (url ∘ snd <$> drop_seen seen df) ↔ u ∈ (url ∘ snd <$> df) ∧ u ∉ seen.
Proof.
  revert seen. induction df as [|p df IH]; intros seen.
  - rewrite drop_seen_nil. simpl. rewrite elem_of_nil. tauto.
  - rewrite drop_seen_cons. case_decide as Hp.
    + rewrite IH, fmap_cons, not_elem_of_cons, elem_of_cons. simpl.
      split; [tauto|]. intros [[->|Hu] Hn]; [done|].
      split; [done|]. split; [congruence|done].
    + rewrite !fmap_cons, !elem_of_cons, IH, not_elem_of_cons. simpl.
      destruct (decide (u = url p.2)) as [->|Hne]; tauto.
Qed.

Lemma drop_seen_NoDup {L N} (seen : list string) (df : frame L (row N)) :
  NoDup (url ∘ snd <$> drop_seen seen df).
Proof.
  revert seen. induction df as [|p df IH]; intros seen.
  - rewrite drop_seen_nil. constructor.
  - rewrite drop_seen_cons. case_decide; [done|].
    rewrite fmap_cons. constructor; [|done].
    rewrite drop_seen_urls, not_elem_of_cons. simpl. tauto.
Qed.

Lemma drop_seen_id {L N} (seen : list string) (df : frame L (row N)) :
  NoDup (url ∘ snd <$> df) →
  (∀ u, u ∈ (url ∘ snd <$> df) → u ∉ seen) →
  drop_seen seen df = df.
Proof.
  revert seen. induction df as [|p df IH]; intros seen Hnd Hseen; [done|].
  rewrite fmap_cons in Hnd. apply NoDup_cons in Hnd as [Hp Hnd].
  rewrite drop_seen_cons, decide_False.
  - f_equal. apply IH; [done|]. intros u Hu.
    rewrite not_elem_of_cons. split.
    + intros ->. by apply Hp.
    + apply Hseen. rewrite fmap_cons. by right.
  - apply Hseen. rewrite fmap_cons. by left.
Qed.

(** After [drop_duplicates(subset='url')] no two rows share a url, every
    url of the input still has a row, and the rows that stay keep their
    order. *)
Theorem drop_duplicates_url_unique {L N} (df : frame L (row N)) :
  NoDup (url ∘ snd <$> drop_duplicates_url df)
  ∧ (∀ u, u ∈ (url ∘ snd <$> drop_duplicates_url df) ↔ u ∈ (url ∘ snd <$> df))
  ∧ drop_duplicates_url df `sublist_of` df.
Proof.
  rewrite drop_duplicates_url_seen. split; [apply drop_seen_NoDup|].
  split; [|apply drop_seen_sublist].
  intros u. rewrite drop_seen_urls, elem_of_nil. tauto.
Qed.

(** Deduplicating twice changes nothing more. *)
Theorem drop_duplicates_url_idempotent {L N} (df : frame L (row N)) :
  drop_duplicates_url (drop_duplicates_url df) = drop_duplicates_url df.
Proof.
  rewrite (drop_duplicates_url_seen (drop_duplicates_url df)).
  apply drop_seen_id.
  - rewrite drop_duplicates_url_seen. apply drop_seen_NoDup.
  - intros u _. apply not_elem_of_nil.
Qed.

(** The row kept for a url is the first one of the input with that url. *)
Theorem drop_duplicates_url_keeps_first {L N} (df : frame L (row N)) i p :
  df !! i = Some p →
  (∀ j q, j < i → df !! j = Some q → url q.2 ≠ url p.2) →
  p ∈ drop_duplicates_url df.
Proof.
  rewrite drop_duplicates_url_seen.
  assert (Hgen : ∀ seen, url p.2 ∉ seen → df !! i = Some p →
            (∀ j q, j < i → df !! j = Some q → url q.2 ≠ url p.2) →
            p ∈ drop_seen seen df); [|apply Hgen, not_elem_of_nil].
  revert i. induction df as [|q df IH]; intros i seen Hseen Hi Hfirst; [done|].
  rewrite drop_seen_cons. destruct i as [|i]; simpl in Hi.
  - injection Hi as ->. rewrite decide_False by done. by left.
  - assert (url q.2 ≠ url p.2) as Hne by (apply (Hfirst 0 q); [lia|done]).
    assert (p ∈ drop_seen (url q.2 :: seen) df) as Hin.
    { apply (IH i); [|done|].
      - rewrite not_elem_of_cons. split; [congruence|done].
      - intros j r Hj Hr. apply (Hfirst (S j) r); [lia|done]. }
    case_decide; [done|by right].
Qed.

Lemma string_app_cons a s t : String a s +:+ t = String a (s +:+ t).
Proof. reflexivity. Qed.

Lemma string_app_nil_r s : s +:+ "" = s.
Proof. induction s as [|a s IH]; [done|]. by rewrite string_app_cons, IH. Qed.

Lemma string_app_assoc s t u : (s +:+ t) +:+ u = s +:+ (t +:+ u).
Proof.
  induction s as [|a s IH]; [done|]. by rewrite !string_app_cons, IH.
Qed.

Lemma duplicated_from_length `{EqDecision A} (seen l : list A) :
  length (duplicated_from seen l) = length l.
Proof. revert seen. induction l; intros seen; simpl; auto. Qed.

Lemma where_length {A} (idx : list A) cond other :
  length cond = length idx → length other = length idx →
  length (where_ idx cond other) = length idx.
Proof.
  revert cond other.
  induction idx as [|x idx IH]; intros [|c cond] [|o other] Hc Ho;
    simpl in *; try done.
  f_equal. apply IH; lia.
Qed.

Lemma disambiguate_length sfx idx : length (disambiguate sfx idx) = length idx.
Proof.
  unfold disambiguate, duplicated.
  apply where_length; by rewrite length_fmap, ?duplicated_from_length.
Qed.

Lemma index_set_index {L L' R} (idx : list L') (df : frame L R) :
  length idx = length df → index (set_index idx df) = idx.
Proof.
  intros Hlen. unfold index, set_index. apply fst_zip.
  rewrite length_fmap. lia.
Qed.

Lemma set_index_length {L L' R} (idx : list L') (df : frame L R) :
  length idx = length df → length (set_index idx df) = length df.
Proof.
  intros Hlen. unfold set_index. rewrite length_zip, length_fmap. lia.
Qed.

(** The index [clean_df] returns: the names of the deduplicated rows after
    the three passes. *)
Lemma clean_df_index (raw_df : frame nat mongo_doc) :
  index (clean_df raw_df).2
  = disambiguate "_4" (disambiguate "_3" (disambiguate "_2"
      (name ∘ snd <$> drop_duplicates_url (prod_map id fields <$> raw_df)))).
Proof.
  unfold clean_df. simpl.
  set (df0 := drop_duplicates_url _).
  assert (H0 : index (set_index_name df0) = name ∘ snd <$> df0).
  { unfold index, set_index_name. rewrite <- list_fmap_compose.
    by apply list_fmap_ext. }
  assert (Hl0 : length (set_index_name df0) = length df0)
    by (unfold set_index_name; by rewrite length_fmap).
  set (df1 := set_index_name df0) in *.
  set (i1 := disambiguate "_2" (index df1)).
  assert (Hi1 : length i1 = length df1)
    by (unfold i1, index; by rewrite disambiguate_length, length_fmap).
  rewrite (index_set_index i1 df1 Hi1).
  pose proof (set_index_length i1 df1 Hi1) as Hl1.
  set (df2 := set_index i1 df1) in *.
  set (i2 := disambiguate "_3" i1).
  assert (Hi2 : length i2 = length df2)
    by (unfold i2; rewrite disambiguate_length; lia).
  rewrite (index_set_index i2 df2 Hi2).
  pose proof (set_index_length i2 df2 Hi2) as Hl2.
  rewrite index_set_index; [by rewrite <- H0|].
  rewrite disambiguate_length. lia.
Qed.

Lemma snd_set_index_disambiguate {R} sfx (df : frame string R) :
  (set_index (disambiguate sfx (index df)) df).*2 = df.*2.
Proof.
  unfold set_index. apply snd_zip.
  rewrite disambiguate_length. unfold index. rewrite !length_fmap. lia.
Qed.

(** The three passes touch the index only. *)
Lemma clean_df_rows (raw_df : frame nat mongo_doc) :
  (clean_df raw_df).2.*2
  = (set_index_name (drop_duplicates_url (prod_map id fields <$> raw_df))).*2.
Proof.
  unfold clean_df. simpl. by rewrite !snd_set_index_disambiguate.
Qed.

(** The frame [clean_df] returns has exactly one row for every url of the
    scraped records, and so never more rows than there are records. *)
Theorem clean_df_one_row_per_url (raw_df : frame nat mongo_doc) :
  NoDup (url ∘ snd <$> (clean_df raw_df).2)
  ∧ (∀ u, u ∈ (url ∘ snd <$> (clean_df raw_df).2)
          ↔ u ∈ (url ∘ fields ∘ snd <$> raw_df))
  ∧ (length (clean_df raw_df).2 ≤ length raw_df)%nat.
Proof.
  set (df0 := drop_duplicates_url (prod_map id fields <$> raw_df)).
  assert (Hurls : url ∘ snd <$> (clean_df raw_df).2 = url ∘ snd <$> df0).
  { rewrite (list_fmap_compose snd url), clean_df_rows. fold df0.
    unfold set_index_name. rewrite <- !list_fmap_compose.
    by apply list_fmap_ext. }
  assert (Hraw : url ∘ snd <$> (prod_map id fields <$> raw_df)
                 = url ∘ fields ∘ snd <$> raw_df).
  { rewrite <- list_fmap_compose. apply list_fmap_ext. by intros i [l d] _. }
  assert (Hlen : length (clean_df raw_df).2 = length df0).
  { rewrite <- (length_fmap snd (clean_df raw_df).2), clean_df_rows. fold df0.
    unfold set_index_name. by rewrite !length_fmap. }
  rewrite Hurls, Hlen. unfold df0. rewrite drop_duplicates_url_seen.
  split; [apply drop_seen_NoDup|]. split.
  - intros u. rewrite drop_seen_urls, Hraw, elem_of_nil. tauto.
  - rewrite <- (length_fmap (prod_map id fields) raw_df).
    apply sublist_length, drop_seen_sublist.
Qed.

Lemma duplicated_from_false `{EqDecision A} (seen l : list A) :
  NoDup l → (∀ x, x ∈ l → x ∉ seen) →
  duplicated_from seen l = replicate (length l) false.
Proof.
  revert seen. induction l as [|x l IH]; intros seen Hnd Hseen; [done|].
  apply NoDup_cons in Hnd as [Hx Hnd]. simpl.
  rewrite bool_decide_false by (apply Hseen; by left). f_equal.
  apply IH; [done|]. intros y Hy. rewrite not_elem_of_cons. split.
  - intros ->. done.
  - apply Hseen. by right.
Qed.

Lemma where_all {A} (idx other : list A) :
  length other = length idx →
  where_ idx (replicate (length idx) true) other = idx.
Proof.
  revert other. induction idx as [|x idx IH]; intros [|o other] Hlen;
    simpl in *; try done.
  f_equal. apply IH. lia.
Qed.

(** A pass over an index without duplicates renames nothing. *)
Lemma disambiguate_NoDup sfx idx : NoDup idx → disambiguate sfx idx = idx.
Proof.
  intros Hnd. unfold disambiguate, duplicated.
  rewrite duplicated_from_false; [|done|intros; apply not_elem_of_nil].
  rewrite fmap_replicate. simpl. apply where_all. by rewrite length_fmap.
Qed.

(** When the scraped records have pairwise different urls and pairwise
    different names, [clean_df] returns one row per record, keyed by the
    names as they are, in the order of the input. *)
Theorem clean_df_keeps_distinct_names (raw_df : frame nat mongo_doc) :
  NoDup (url ∘ fields ∘ snd <$> raw_df) →
  NoDup (name ∘ fields ∘ snd <$> raw_df) →
  index (clean_df raw_df).2 = name ∘ fields ∘ snd <$> raw_df.
Proof.
  intros Hurls Hnames. rewrite clean_df_index.
  assert (Hdd : drop_duplicates_url (prod_map id fields <$> raw_df)
                = prod_map id fields <$> raw_df).
  { apply drop_seen_id; [|intros; apply not_elem_of_nil].
    rewrite <- list_fmap_compose.
    erewrite list_fmap_ext; [exact Hurls|]. by intros i [l d] _. }
  rewrite Hdd, <- list_fmap_compose.
  assert (Hn : name ∘ snd ∘ prod_map id fields <$> raw_df
               = name ∘ fields ∘ snd <$> raw_df).
  { apply list_fmap_ext. by intros i [l d] _. }
  rewrite Hn.
  rewrite (disambiguate_NoDup "_2") by done.
  rewrite (disambiguate_NoDup "_3") by done.
  by rewrite disambiguate_NoDup.
Qed.

Lemma duplicated_from_fmap {A B} `{EqDecision A, EqDecision B}
    (f : A → B) `{!Inj (=) (=) f} (seen l : list A) :
  duplicated_from (f <$> seen) (f <$> l) = duplicated_from seen l.
Proof.
  revert seen. induction l as [|x l IH]; intros seen; [done|].
  simpl. f_equal.
  - apply bool_decide_ext. by rewrite (list_elem_of_fmap_inj f).
  - by rewrite <- (IH (x :: seen)).
Qed.

Lemma where_fmap {A B} (f : A → B) (idx : list A) cond other :
  where_ (f <$> idx) cond (f <$> other) = f <$> where_ idx cond other.
Proof.
  revert cond other.
  induction idx as [|x idx IH]; intros [|c cond] [|o other]; simpl; try done.
  f_equal; [by destruct c|apply IH].
Qed.

(** A pass acts on what follows a common prefix of all names. *)
Lemma disambiguate_prefix s sfx idx :
  disambiguate sfx (String.app s <$> idx) = String.app s <$> disambiguate sfx idx.
Proof.
  unfold disambiguate, duplicated.
  change (@nil string) with (String.app s <$> []) at 1.
  rewrite duplicated_from_fmap by apply _.
  rewrite <- where_fmap. f_equal.
  rewrite <- !list_fmap_compose. apply list_fmap_ext.
  intros i x _. simpl. apply string_app_assoc.
Qed.

(** Up to four trails that share a name (and nothing else in the table)
    get the distinct keys [s], [s_2], [s_2_3], [s_2_3_4]. *)
Theorem clean_df_resolves_four_namesakes (raw_df : frame nat mongo_doc) s :
  NoDup (url ∘ fields ∘ snd <$> raw_df) →
  Forall (λ p, name (fields p.2) = s) raw_df →
  (length raw_df ≤ 4)%nat →
  index (clean_df raw_df).2
  = String.app s <$> take (length raw_df) [""; "_2"; "_2_3"; "_2_3_4"]
  ∧ NoDup (index (clean_df raw_df).2).
Proof.
  intros Hurls Hnames Hlen.
  assert (Hidx : index (clean_df raw_df).2
     = String.app s <$> take (length raw_df) [""; "_2"; "_2_3"; "_2_3_4"]).
  { rewrite clean_df_index.
    assert (Hdd : drop_duplicates_url (prod_map id fields <$> raw_df)
                  = prod_map id fields <$> raw_df).
    { apply drop_seen_id; [|intros; apply not_elem_of_nil].
      rewrite <- list_fmap_compose.
      erewrite list_fmap_ext; [exact Hurls|]. by intros i [l d] _. }
    rewrite Hdd, <- list_fmap_compose.
    assert (Hn : name ∘ snd ∘ prod_map id fields <$> raw_df
                 = String.app s <$> replicate (length raw_df) "").
    { clear -Hnames. induction Hnames as [|[l d] df Hp _ IH]; [done|].
      simpl in Hp. cbn [length replicate].
      rewrite !fmap_cons, IH, string_app_nil_r. simpl. by rewrite Hp. }
    rewrite Hn, !disambiguate_prefix. f_equal.
    destruct raw_df as [|? [|? [|? [|? [|? ?]]]]]; simpl in Hlen;
      try lia; reflexivity. }
  split; [done|]. rewrite Hidx. apply NoDup_fmap; [apply _|].
  eapply sublist_NoDup; [|apply sublist_take].
  apply (bool_decide_unpack _). vm_compute. exact I.
Qed.

Lemma drop_duplicates_url_keeps_first_witness :
  (2, fields (Samples.trail "3" "Bear Creek Trail" "/trail/bear-creek"))
  ∈ drop_duplicates_url
      (prod_map id fields <$> mongo_to_dataframe Samples.scraped_twice).
Proof.
  apply (drop_duplicates_url_keeps_first _ 2).
  - reflexivity.
  - intros [|[|j]] q Hj Hq; [injection Hq as <-; discriminate..|lia].
Defined.

Lemma clean_df_keeps_distinct_names_witness :
  index (clean_df (mongo_to_dataframe (drop 1 Samples.scraped_twice))).2
  = ["Royal Arch Trail"; "Bear Creek Trail"].
Proof.
  apply (clean_df_keeps_distinct_names
           (mongo_to_dataframe (drop 1 Samples.scraped_twice))).
  - apply (bool_decide_unpack _). vm_compute. exact I.
  - apply (bool_decide_unpack _). vm_compute. exact I.
Defined.

Lemma clean_df_resolves_four_namesakes_witness :
  index (clean_df (mongo_to_dataframe (take 4 Samples.five_namesakes))).2
  = ["Bear Creek Trail"; "Bear Creek Trail_2"; "Bear Creek Trail_2_3";
     "Bear Creek Trail_2_3_4"]
  ∧ NoDup (index (clean_df (mongo_to_dataframe (take 4 Samples.five_namesakes))).2).
Proof.
  apply (clean_df_resolves_four_namesakes
           (mongo_to_dataframe (take 4 Samples.five_namesakes))
           "Bear Creek Trail").
  - apply (bool_decide_unpack _). vm_compute. exact I.
  - apply (bool_decide_unpack _). vm_compute. exact I.
  - simpl. lia.
Defined.

End CorpusMore.

(** ** Corpus Builder: review text, corpus rows, url dictionary *)

Module ReviewsMore.
Import Corpus TopicsFacts CorpusFacts CorpusMore.

Abbreviation chars := list_ascii_of_string.

Lemma chars_app s t : chars (s +:+ t) = chars s ++ chars t.
Proof.
  induction s as [|a s IH]; [done|].
  rewrite string_app_cons. simpl. by rewrite IH.
Qed.

Lemma chars_replace a b s c :
  c ∈ chars (replace a b s) → c = b ∨ (c ≠ a ∧ c ∈ chars s).
Proof.
  induction s as [|x s IH]; simpl; [by intros ?%elem_of_nil|].
  intros [->|Hin]%elem_of_cons.
  - destruct (Ascii.eqb_spec x a) as [->|Hne]; [by left|].
    right. split; [done|by left].
  - destruct (IH Hin) as [->|[Hne Hc]]; [by left|].
    right. split; [done|by right].
Qed.

Lemma review_text_chars v t c :
  review_text v = Ok t → c ∈ chars t →
  c ≠ newline ∧ c ≠ carriage_return.
Proof.
  destruct v as [entry|]; simpl.
  - destruct (entry !! 2) as [body|]; [|done]. intros [= <-].
    rewrite chars_app, elem_of_app. intros [Hc|Hc].
    + apply chars_replace in Hc as [->|[Hcr Hc]]; [done|].
      apply chars_replace in Hc as [->|[Hnl _]]; done.
    + simpl in Hc. by apply list_elem_of_singleton in Hc as ->.
  - intros [= <-]. by intros ?%elem_of_nil.
Qed.

Lemma chars_foldl_app acc texts c :
  c ∈ chars (foldl String.app acc texts) →
  c ∈ chars acc ∨ ∃ t, t ∈ texts ∧ c ∈ chars t.
Proof.
  revert acc. induction texts as [|t texts IH]; intros acc; simpl; [by left|].
  intros [Hc|(t' & Ht & Hc)]%IH.
  - rewrite chars_app, elem_of_app in Hc. destruct Hc as [?|?]; [by left|].
    right. exists t. split; [by left|done].
  - right. exists t'. split; [by right|done].
Qed.

Lemma mapM_result_lookup {A B} (f : A → result B) xs ys i x :
  mapM f xs = Ok ys → xs !! i = Some x → ∃ y, ys !! i = Some y ∧ f x = Ok y.
Proof.
  intros Hm%mapM_result_Forall2 Hx.
  destruct (Forall2_lookup_l _ _ _ _ _ Hm Hx) as (y & Hy & Hf). eauto.
Qed.

Lemma mapM_result_elem_of {A B} (f : A → result B) xs ys y :
  mapM f xs = Ok ys → y ∈ ys → ∃ x, x ∈ xs ∧ f x = Ok y.
Proof.
  intros Hm%mapM_result_Forall2 [i Hy]%list_elem_of_lookup.
  destruct (Forall2_lookup_r _ _ _ _ _ Hm Hy) as (x & Hx & Hf).
  exists x. split; [by eapply list_elem_of_lookup_2|done].
Qed.

Lemma mapM_result_is_Ok {A B} (f : A → result B) xs :
  (∃ ys, mapM f xs = Ok ys) ↔ Forall (λ x, ∃ y, f x = Ok y) xs.
Proof.
  induction xs as [|x xs IH]; simpl.
  - split; [constructor|by eexists].
  - rewrite Forall_cons, <- IH. split.
    + intros [ys Hys]. destruct (f x) as [y|e]; simpl in Hys; [|done].
      destruct (mapM f xs) as [ys'|e]; simpl in Hys; [|done]. eauto.
    + intros [[y ->] [ys ->]]. simpl. by eexists.
Qed.

(** The document of one [reviews] cell, as the loop body builds it. *)
Definition review_document (c : reviews_cell) : result string :=
  match c with
  | RDict items =>
      texts ← mapM (λ kv, review_text kv.2) items;
      Ok (foldl String.app "" texts)
  | RNone => Ok ""
  | RNaN => Raise AttributeError
  end.

(** The document of what [data[i]] gave. *)
Definition item_document (it : series_item) : result string :=
  match it with
  | Cell c => review_document c
  | SubSeries _ => Ok ""
  end.

Lemma get_review_corpus_items `{IntLabels L} (data : frame L reviews_cell) :
  get_review_corpus data
  = (docs ← mapM (λ i, series_getitem data i ≫= item_document)
             (seq 0 (length data));
     Ok (index data, docs)).
Proof. reflexivity. Qed.

Lemma filter_none {A} (P : A → Prop) `{∀ x, Decision (P x)} (l : list A) :
  Forall (λ x, ¬ P x) l → filter P l = [].
Proof.
  induction 1 as [|x l Hx _ IH]; [done|]. by rewrite filter_cons_False.
Qed.

(** The rows whose key is that of row [k], when no two rows share a key. *)
Lemma filter_key_unique {L R K} `{EqDecision K} (f : L → K) (df : frame L R) k p :
  NoDup (f <$> index df) → df !! k = Some p →
  filter (λ q, f q.1 = f p.1) df = [p].
Proof.
  unfold index. revert k. induction df as [|q df IH]; intros k Hnd Hk; [done|].
  rewrite !fmap_cons in Hnd. apply NoDup_cons in Hnd as [Hq Hnd].
  rewrite filter_cons. destruct k as [|k]; simpl in Hk.
  - injection Hk as ->. rewrite decide_True by done. f_equal.
    apply filter_none, Forall_forall. intros q Hin Heq. apply Hq.
    rewrite <- Heq, <- list_fmap_compose. apply list_elem_of_fmap. by exists q.
  - rewrite decide_False; [by apply (IH k)|].
    intros Heq. apply Hq. rewrite Heq, <- list_fmap_compose.
    apply list_elem_of_fmap. exists p. split; [done|].
    by eapply list_elem_of_lookup_2.
Qed.

Lemma filter_label_unique `{EqDecision L} {R} (df : frame L R) k l r :
  NoDup (index df) → df !! k = Some (l, r) →
  filter (λ p, p.1 = l) df = [(l, r)].
Proof.
  unfold index. revert k. induction df as [|q df IH]; intros k Hnd Hk; [done|].
  rewrite fmap_cons in Hnd. apply NoDup_cons in Hnd as [Hq Hnd].
  rewrite filter_cons. destruct k as [|k]; simpl in Hk.
  - injection Hk as ->. simpl. rewrite decide_True by done. f_equal.
    apply filter_none, Forall_forall. intros p Hp Heq. apply Hq.
    simpl. rewrite <- Heq. apply list_elem_of_fmap. by exists p.
  - rewrite decide_False; [by apply (IH k)|].
    intros Heq. apply Hq. rewrite Heq.
    apply list_elem_of_fmap. exists (l, r). split; [done|].
    by eapply list_elem_of_lookup_2.
Qed.

(** A series is read by position when its index holds names, or is the
    integer index [0 .. n-1] of a freshly built frame. *)
Definition positional `{IntLabels L} (data : frame L reviews_cell) : Prop :=
  match int_label with
  | Some as_int => as_int <$> index data = seq 0 (length data)
  | None => True
  end.

Lemma series_getitem_positional `{IntLabels L} (data : frame L reviews_cell) i p :
  positional data → data !! i = Some p →
  series_getitem data i = Ok (Cell p.2).
Proof.
  unfold positional, series_getitem. intros Hpos Hi.
  destruct int_label as [as_int|]; [|by rewrite Hi].
  assert (Hp : as_int p.1 = i).
  { assert (Hl : (as_int <$> index data) !! i = Some (as_int p.1))
      by (unfold index; by rewrite !list_lookup_fmap, Hi).
    rewrite Hpos in Hl. apply lookup_seq in Hl. lia. }
  rewrite <- Hp, (filter_key_unique as_int data i p); [done| |done].
  rewrite Hpos. apply NoDup_seq.
Qed.

Lemma mapM_seq_lookup {A B} (f : nat → result B) (g : A → result B)
    (l : list A) (k : nat) :
  (∀ i x, l !! i = Some x → f (k + i) = g x) →
  mapM f (seq k (length l)) = mapM g l.
Proof.
  revert k. induction l as [|x l IH]; intros k Hfg; [done|].
  simpl. rewrite <- (Hfg 0 x eq_refl), Nat.add_0_r.
  rewrite (IH (S k)); [done|].
  intros i y Hy. rewrite <- (Hfg (S i) y Hy). f_equal. lia.
Qed.

(** Read by position, the documents are those of the cells, row by row. *)
Lemma get_review_corpus_documents `{IntLabels L} (data : frame L reviews_cell) :
  positional data →
  get_review_corpus data
  = (docs ← mapM (λ p, review_document p.2) data; Ok (index data, docs)).
Proof.
  intros Hpos. rewrite get_review_corpus_items.
  rewrite (mapM_seq_lookup _ (λ p, review_document p.2) data 0); [done|].
  intros i p Hi. simpl. by rewrite (series_getitem_positional data i p).
Qed.

Lemma review_document_chars cell d c :
  review_document cell = Ok d → c ∈ chars d →
  c ≠ newline ∧ c ≠ carriage_return.
Proof.
  intros Hcell Hc. destruct cell as [items| |]; simpl in Hcell.
  - destruct (mapM _ items) as [texts|e] eqn:Ht; simpl in Hcell; [|done].
    injection Hcell as <-.
    apply chars_foldl_app in Hc as [Hc|(t & Hin & Hc)];
      [by apply elem_of_nil in Hc|].
    destruct (mapM_result_elem_of _ _ _ _ Ht Hin) as (kv & _ & Hkv).
    by eapply review_text_chars.
  - injection Hcell as <-. by apply elem_of_nil in Hc.
  - done.
Qed.

(** No document that [get_review_corpus] returns contains a newline or a
    carriage return. *)
Theorem get_review_corpus_one_line `{IntLabels L} (data : frame L reviews_cell)
    rows docs d c :
  get_review_corpus data = Ok (rows, docs) →
  d ∈ docs → c ∈ chars d →
  c ≠ newline ∧ c ≠ carriage_return.
Proof.
  rewrite get_review_corpus_items.
  destruct (mapM _ (seq 0 (length data))) as [docs'|e] eqn:Hm; simpl; [|done].
  intros [= _ <-] Hd Hc.
  destruct (mapM_result_elem_of _ _ _ _ Hm Hd) as (i & _ & Hi).
  destruct (series_getitem data i) as [[cell|cells]|e]; simpl in Hi; [| |done].
  - by eapply review_document_chars.
  - injection Hi as <-. by apply elem_of_nil in Hc.
Qed.

(** A [reviews] cell the code can read: [None], or a dict whose list-typed
    values all have a field 2. *)
Definition readable (c : reviews_cell) : Prop :=
  match c with
  | RDict items =>
      Forall (λ kv, match kv.2 with
                    | RList entry => 3 ≤ length entry
                    | ROther => True
                    end)%nat items
  | RNone => True
  | RNaN => False
  end.

Lemma review_document_is_Ok c : (∃ d, review_document c = Ok d) ↔ readable c.
Proof.
  destruct c as [items| |]; simpl.
  - transitivity (∃ texts, mapM (λ kv, review_text kv.2) items = Ok texts).
    + split.
      * intros [d Hd]. destruct (mapM _ items) as [texts|e]; [eauto|done].
      * intros [texts ->]. simpl. by eexists.
    + rewrite mapM_result_is_Ok. apply Forall_iff. intros [k v]. simpl.
      destruct v as [entry|]; simpl.
      * destruct (entry !! 2) as [body|] eqn:He.
        -- apply lookup_lt_Some in He. split; [lia|by eexists].
        -- apply lookup_ge_None in He. split; [by intros [? ?]|lia].
      * split; [done|by eexists].
  - split; [done|by eexists].
  - split; [by intros [? ?]|done].
Qed.

Lemma review_documents_Ok_iff {L} (data : frame L reviews_cell) :
  (∃ docs, mapM (λ p : L * reviews_cell, review_document p.2) data = Ok docs)
  ↔ Forall (λ p, readable p.2) data.
Proof.
  rewrite mapM_result_is_Ok. apply Forall_iff. intros [l c]. simpl.
  apply review_document_is_Ok.
Qed.

(** On a series that is read by position (an index of names, or the
    integer index [0 .. n-1] the script has), [get_review_corpus] returns
    exactly when every cell is readable; it then returns the index of its
    argument and one document per row. *)
Theorem get_review_corpus_succeeds_iff `{IntLabels L} (data : frame L reviews_cell) :
  positional data →
  (∃ docs, get_review_corpus data = Ok (index data, docs)
           ∧ length docs = length data)
  ↔ Forall (λ p, readable p.2) data.
Proof.
  intros Hpos.
  rewrite get_review_corpus_documents by done.
  rewrite <- review_documents_Ok_iff.
  split.
  - intros (docs & Hd & _). destruct (mapM _ data) as [docs'|e]; [eauto|done].
  - intros [docs Hd]. rewrite Hd. exists docs. split; [done|].
    by apply mapM_result_length in Hd.
Qed.

(** The documents that [get_review_corpus] returns always fit the index it
    returns: [make_reviews_df] does not raise on them, and the frame it
    builds has the index of the [reviews] column. *)
Lemma make_reviews_df_of_review_corpus `{IntLabels L} (data : frame L reviews_cell)
    rows docs :
  get_review_corpus data = Ok (rows, docs) →
  ∃ df, make_reviews_df rows docs = Ok df ∧ index df = index data ∧ df.*2 = docs.
Proof.
  rewrite get_review_corpus_items.
  destruct (mapM _ (seq 0 (length data))) as [docs'|e] eqn:Hm; simpl; [|done].
  intros [= <- <-]. apply mapM_result_length in Hm. rewrite length_seq in Hm.
  assert (Hlen : length (index data) = length docs')
    by (unfold index; rewrite length_fmap; lia).
  unfold make_reviews_df. rewrite bool_decide_true by done.
  eexists. split; [done|]. unfold index in *.
  split; [apply fst_zip|apply snd_zip]; lia.
Qed.

Lemma mapM_result_raise {A B} (f : A → result B) xs x ys e :
  Forall (λ x, ∃ y, f x = Ok y) xs → f x = Raise e →
  mapM f (xs ++ x :: ys) = Raise e.
Proof.
  intros Hxs Hx. induction Hxs as [|x' xs [y Hy] _ IH]; simpl.
  - by rewrite Hx.
  - by rewrite Hy, IH.
Qed.

Lemma series_getitem_nat (data : frame nat reviews_cell) (j : nat) :
  series_getitem data j
  = match filter (λ p, p.1 = j) data with
    | [] => Raise (KeyError (pretty j))
    | [p] => Ok (Cell p.2)
    | ps => Ok (SubSeries ps.*2)
    end.
Proof. reflexivity. Qed.

(** On an integer index the cells are read by label.  When [i] is the
    first of [0 .. n-1] that labels no row, and every cell is readable,
    [get_review_corpus] raises [KeyError] for [i]. *)
Theorem get_review_corpus_missing_label (data : frame nat reviews_cell) i :
  i < length data → i ∉ index data → (∀ j, j < i → j ∈ index data) →
  Forall (λ p, readable p.2) data →
  get_review_corpus data = Raise (KeyError (pretty i)).
Proof.
  intros Hi Hnin Hbelow Hread. rewrite get_review_corpus_items.
  assert (Hseq : seq 0 (length data)
                 = seq 0 i ++ i :: seq (S i) (length data - S i)).
  { replace (length data) with (i + S (length data - S i)) at 1 by lia.
    by rewrite seq_app. }
  rewrite Hseq, (mapM_result_raise _ _ _ _ (KeyError (pretty i))); [done| |].
  - apply Forall_forall. intros j Hj%elem_of_seq.
    rewrite series_getitem_nat.
    destruct (filter (λ p : nat * reviews_cell, p.1 = j) data)
      as [|p [|q ps]] eqn:Hf.
    + exfalso. assert (Hin : j ∈ index data) by (apply Hbelow; lia).
      unfold index in Hin.
      apply list_elem_of_fmap in Hin as (p & Hp & Hin).
      assert (Hpf : p ∈ filter (λ p : nat * reviews_cell, p.1 = j) data)
        by (by apply list_elem_of_filter).
      rewrite Hf in Hpf. by apply elem_of_nil in Hpf.
    + apply (proj2 (review_document_is_Ok p.2)).
      assert (Hpf : p ∈ filter (λ p : nat * reviews_cell, p.1 = j) data)
        by (rewrite Hf; left).
      apply list_elem_of_filter in Hpf as [_ Hin].
      rewrite Forall_forall in Hread. by apply (Hread p).
    + by eexists.
  - rewrite series_getitem_nat.
    rewrite (filter_none (λ p : nat * reviews_cell, p.1 = i)); [done|].
    apply Forall_forall. intros p Hp Heq. apply Hnin.
    unfold index. apply list_elem_of_fmap. by exists p.
Qed.

(** On an integer index that is a reordering of [0 .. n-1] nothing is
    raised, but names and documents come apart: the name of the row at
    position [i] is at position [i] of the result, its document at the
    position given by its label. *)
Theorem get_review_corpus_reads_by_label (data : frame nat reviews_cell)
    rows docs i l c :
  NoDup (index data) → Forall (λ l, l < length data) (index data) →
  get_review_corpus data = Ok (rows, docs) →
  data !! i = Some (l, c) →
  rows !! i = Some l
  ∧ ∃ d, docs !! l = Some d ∧ review_document c = Ok d.
Proof.
  intros Hnd Hlabels. rewrite get_review_corpus_items.
  destruct (mapM _ (seq 0 (length data))) as [docs'|e] eqn:Hm; simpl; [|done].
  intros [= <- <-] Hi. split.
  { unfold index. by rewrite list_lookup_fmap, Hi. }
  assert (Hl : l < length data).
  { rewrite Forall_forall in Hlabels. apply Hlabels.
    unfold index. apply list_elem_of_fmap. exists (l, c).
    split; [done|]. by eapply list_elem_of_lookup_2. }
  destruct (mapM_result_lookup _ _ _ l l Hm) as (d & Hd & Hdoc);
    [by apply lookup_seq_lt|].
  exists d. split; [done|].
  rewrite series_getitem_nat in Hdoc.
  rewrite (filter_label_unique data i l c) in Hdoc; done.
Qed.

Lemma hike_url_dict_last `{Countable L} {N} (raw_df : frame L (row N)) l :
  hike_url_dict raw_df !! l
  = url ∘ snd <$> last (filter (λ p, p.1 = l) raw_df).
Proof.
  induction raw_df as [|p raw_df IH] using rev_ind; [done|].
  unfold hike_url_dict in *. rewrite foldl_app, filter_app. simpl.
  rewrite filter_cons, filter_nil.
  destruct (decide (p.1 = l)) as [<-|Hne].
  - by rewrite lookup_insert_eq, last_snoc.
  - by rewrite lookup_insert_ne, app_nil_r.
Qed.

(** On a frame keyed by trail names (where [raw_df['url'][i]] reads row
    [i]), [hike_url_dict] has an entry exactly for the names of the
    frame. *)
Theorem hike_url_dict_keys {N} (raw_df : frame string (row N)) l :
  is_Some (hike_url_dict raw_df !! l) ↔ l ∈ index raw_df.
Proof.
  rewrite hike_url_dict_last, fmap_is_Some, last_is_Some.
  unfold index. rewrite list_elem_of_fmap. split.
  - intros Hne. destruct (filter _ raw_df) as [|p ps] eqn:Hf; [done|].
    assert (Hp : p ∈ filter (λ p : string * row N, p.1 = l) raw_df)
      by (rewrite Hf; left).
    apply list_elem_of_filter in Hp as [Hp Hin]. by exists p.
  - intros (p & Hp & Hin) Hf.
    assert (Hp' : p ∈ filter (λ p : string * row N, p.1 = l) raw_df)
      by (by apply list_elem_of_filter).
    rewrite Hf in Hp'. by apply elem_of_nil in Hp'.
Qed.

(** When several rows of a frame keyed by trail names carry one name, the
    dictionary keeps the url of the last of them. *)
Theorem hike_url_dict_last_row_wins {N}
    (raw_df pre post : frame string (row N)) l r :
  raw_df = pre ++ (l, r) :: post → l ∉ index post →
  hike_url_dict raw_df !! l = Some (url r).
Proof.
  intros -> Hpost.
  rewrite hike_url_dict_last, filter_app, filter_cons_True by done.
  rewrite (filter_none _ post); [by rewrite last_snoc|].
  apply Forall_forall. intros p Hp Heq. apply Hpost.
  unfold index. apply list_elem_of_fmap. by exists p.
Qed.

Lemma index_prod_map {L A B} (f : A → B) (df : frame L A) :
  index (prod_map id f <$> df) = index df.
Proof.
  unfold index. rewrite <- list_fmap_compose. apply list_fmap_ext.
  by intros i [l a] _.
Qed.

Lemma mongo_to_dataframe_lookup docs i :
  mongo_to_dataframe docs !! i = (λ d, (i, d)) <$> docs !! i.
Proof.
  unfold mongo_to_dataframe. rewrite list_lookup_imap.
  by destruct (docs !! i).
Qed.

(** The [reviews] column of the raw frame of the script is read by
    position: its index is [0 .. n-1]. *)
Lemma reviews_positional docs :
  positional (prod_map id reviews
                <$> (prod_map id fields <$> mongo_to_dataframe docs)).
Proof.
  unfold positional. simpl.
  rewrite !index_prod_map, index_mongo_to_dataframe, !length_fmap.
  unfold mongo_to_dataframe. rewrite length_imap. apply list_fmap_id.
Qed.

(** The parts of the corpus stage that do not depend on the reviews. *)
Lemma main_corpus_frames docs s :
  main_corpus docs = Ok s →
  docs ≠ []
  ∧ df_mongo s = prod_map id fields <$> mongo_to_dataframe docs
  ∧ df_clean s = (clean_df (mongo_to_dataframe docs)).2
  ∧ url_dict s = hike_url_dict (df_mongo s)
  ∧ df_hike s = make_hike_df (df_mongo s)
  ∧ ∃ rows docs',
      get_review_corpus (prod_map id reviews <$> df_mongo s) = Ok (rows, docs')
      ∧ make_reviews_df rows docs' = Ok (df_reviews s)
      ∧ make_corpus_df (df_mongo s) (df_reviews s) = Ok (df_corpus s).
Proof.
  unfold main_corpus, clean_df.
  case_bool_decide as Hne; [done|]. simpl.
  destruct (get_review_corpus _) as [[rows docs']|e] eqn:Hg; [|done]. simpl.
  destruct (make_reviews_df rows docs') as [df_r|e] eqn:Hr; [|done]. simpl.
  destruct (make_corpus_df _ df_r) as [df_c|e] eqn:Hc; [|done]. simpl.
  intros [= <-]. simpl. split; [by intros ->|].
  repeat split; try done. eauto.
Qed.

(** In the script the url dictionary is keyed by the positions of the
    scraped records (the index of the raw frame), not by trail names. *)
Theorem main_corpus_url_dict_by_position docs s i :
  main_corpus docs = Ok s →
  url_dict s !! i = url ∘ fields <$> docs !! i.
Proof.
  intros (_ & Hm & _ & -> & _)%main_corpus_frames.
  rewrite hike_url_dict_last, Hm.
  assert (Hnd : NoDup (index (prod_map id fields <$> mongo_to_dataframe docs))).
  { rewrite index_prod_map, index_mongo_to_dataframe. apply NoDup_seq. }
  destruct (docs !! i) as [d|] eqn:Hd; simpl.
  - rewrite (filter_label_unique _ i i (fields d)); [done|done|].
    by rewrite list_lookup_fmap, mongo_to_dataframe_lookup, Hd.
  - assert (Hempty : filter (λ p : nat * row string, p.1 = i)
               (prod_map id fields <$> mongo_to_dataframe docs) = []); [|by rewrite Hempty].
    apply filter_none, Forall_forall. intros p Hp Heq.
    assert (Hin : i ∈ index (prod_map id fields <$> mongo_to_dataframe docs)).
    { unfold index. apply list_elem_of_fmap. by exists p. }
    rewrite index_prod_map, index_mongo_to_dataframe, elem_of_seq in Hin.
    apply lookup_ge_None in Hd. lia.
Qed.

(** The corpus stage of the script succeeds exactly when there is at
    least one scraped record and every record has a readable [reviews]
    cell.  On an empty collection [clean_df] raises [KeyError]: the frame
    has no [_id] column to drop. *)
Theorem main_corpus_succeeds_iff docs :
  (∃ s, main_corpus docs = Ok s)
  ↔ docs ≠ [] ∧ Forall (λ d, readable (reviews (fields d))) docs.
Proof.
  set (data := prod_map id reviews
                 <$> (prod_map id fields <$> mongo_to_dataframe docs)).
  assert (Hpos : positional data) by apply reviews_positional.
  assert (Hdata : Forall (λ p, readable p.2) data
                  ↔ Forall (λ d, readable (reviews (fields d))) docs).
  { unfold data. rewrite !Forall_fmap. unfold mongo_to_dataframe.
    rewrite !Forall_lookup. split.
    - intros Hall i d Hd. apply (Hall i (i, d)).
      by rewrite list_lookup_imap, Hd.
    - intros Hall i [j d] Hd. rewrite list_lookup_imap in Hd.
      destruct (docs !! i) as [d'|] eqn:Hd'; [|done].
      injection Hd as <- <-. simpl. by apply (Hall i). }
  rewrite <- Hdata, <- review_documents_Ok_iff. split.
  - intros [s (Hne & Hm & _ & _ & _ & rows & docs' & Hg & _)%main_corpus_frames].
    split; [done|].
    rewrite Hm in Hg. fold data in Hg.
    rewrite get_review_corpus_documents in Hg by done.
    destruct (mapM _ data) as [docs''|e]; [eauto|done].
  - intros [Hne [docs' Hmap]].
    assert (Hg : get_review_corpus data = Ok (index data, docs'))
      by (by rewrite get_review_corpus_documents, Hmap).
    unfold main_corpus, clean_df.
    rewrite bool_decide_false by (by destruct docs). simpl.
    fold data. rewrite Hg. simpl.
    destruct (make_reviews_df_of_review_corpus _ _ _ Hg) as (df_r & -> & Hidx & _).
    simpl. unfold make_corpus_df, align_reviews.
    unfold data in Hidx. rewrite index_prod_map in Hidx.
    rewrite bool_decide_true by done. simpl. by eexists.
Qed.

(** Row [i] of the corpus table of the script is built from scraped record
    [i]: it is labelled [i], has the record's url, the record's review
    document (empty when [reviews] is [None]), and as [all] the four texts
    joined by single spaces, a missing text counting as empty. *)
Theorem main_corpus_row docs s i d :
  main_corpus docs = Ok s → docs !! i = Some d →
  ∃ r, df_corpus s !! i = Some (i, r)
       ∧ c_url r = url (fields d)
       ∧ review_document (reviews (fields d)) = Ok (review_string r)
       ∧ Corpus.all r
         = fillna (tags (fields d)) +:+ " "
           +:+ fillna (main_description (fields d)) +:+ " "
           +:+ fillna (secondary_description (fields d)) +:+ " "
           +:+ review_string r.
Proof.
  intros (_ & Hm & _ & _ & _ & rows & docs' & Hg & Hr & Hc)%main_corpus_frames Hd.
  destruct (make_reviews_df_of_review_corpus _ _ _ Hg) as (df_r & Hr' & Hidx & Hsnd).
  rewrite Hr in Hr'. injection Hr' as <-.
  rewrite index_prod_map in Hidx.
  unfold make_corpus_df, align_reviews in Hc.
  rewrite bool_decide_true in Hc by done. simpl in Hc. injection Hc as Hc.
  rewrite get_review_corpus_documents in Hg
    by (rewrite Hm; apply reviews_positional).
  destruct (mapM _ _) as [docs''|e] eqn:Hmap; simpl in Hg; [|done].
  injection Hg as _ <-.
  assert (Hrow : df_mongo s !! i = Some (i, fields d))
    by (by rewrite Hm, list_lookup_fmap, mongo_to_dataframe_lookup, Hd).
  destruct (mapM_result_lookup _ _ _ i (i, reviews (fields d)) Hmap)
    as (doc & Hdoc & Hreview); [by rewrite list_lookup_fmap, Hrow|].
  simpl in Hreview.
  eexists. rewrite <- Hc. split.
  - rewrite lookup_zip_with, Hrow. simpl.
    by rewrite list_lookup_fmap, Hsnd, Hdoc.
  - simpl. by repeat split.
Qed.

(** One review whose text runs over three lines. *)
Definition three_line_review : frame nat reviews_cell :=
  [(0, RDict [("0", RList ["ann"; "5";
                           "Steep" +:+ String newline "but"
                           +:+ String carriage_return "lovely."])])].

Lemma get_review_corpus_succeeds_iff_witness :
  (∃ docs, get_review_corpus three_line_review
           = Ok (index three_line_review, docs)
           ∧ length docs = length three_line_review)
  ↔ Forall (λ p, readable p.2) three_line_review.
Proof.
  apply (get_review_corpus_succeeds_iff three_line_review).
  reflexivity.
Defined.

(** Two reviews under the integer labels 0 and 2, and under 1 and 0. *)
Definition one_review (body : string) : reviews_cell :=
  RDict [("0", RList ["ann"; "5"; body])].
Definition gapped_reviews : frame nat reviews_cell :=
  [(0, one_review "first"); (2, one_review "second")].
Definition swapped_reviews : frame nat reviews_cell :=
  [(1, one_review "first"); (0, one_review "second")].

Lemma get_review_corpus_missing_label_witness :
  get_review_corpus gapped_reviews = Raise (KeyError (pretty 1)).
Proof.
  apply (get_review_corpus_missing_label gapped_reviews 1).
  - simpl. lia.
  - apply (bool_decide_unpack _). vm_compute. exact I.
  - intros [|j] Hj; [|lia]. apply (bool_decide_unpack _). vm_compute. exact I.
  - repeat constructor.
Defined.

Lemma get_review_corpus_reads_by_label_witness :
  [1; 0] !! 0 = Some 1
  ∧ ∃ d, ["second "; "first "] !! 1 = Some d
         ∧ review_document (one_review "first") = Ok d.
Proof.
  apply (get_review_corpus_reads_by_label swapped_reviews
           [1; 0] ["second "; "first "] 0 1 (one_review "first")).
  - apply (bool_decide_unpack _). vm_compute. exact I.
  - apply (bool_decide_unpack _). vm_compute. exact I.
  - vm_compute. reflexivity.
  - reflexivity.
Defined.

Lemma get_review_corpus_one_line_witness :
  " "%char ≠ newline ∧ " "%char ≠ carriage_return.
Proof.
  apply (get_review_corpus_one_line three_line_review [0]
           ["Steep but lovely. "] "Steep but lovely. " " "%char).
  - vm_compute. reflexivity.
  - apply (bool_decide_unpack _). vm_compute. exact I.
  - apply (bool_decide_unpack _). vm_compute. exact I.
Defined.

(** Two namesakes and a third trail, keyed by name. *)
Definition keyed_by_name : frame string (row string) :=
  (λ d, (name (fields d), fields d))
    <$> take 2 Samples.five_namesakes ++ take 1 Samples.scraped_twice.

Lemma hike_url_dict_last_row_wins_witness :
  hike_url_dict keyed_by_name !! "Bear Creek Trail" = Some "/trail/bear-creek-2".
Proof.
  apply (hike_url_dict_last_row_wins keyed_by_name
           (take 1 keyed_by_name) (drop 2 keyed_by_name) "Bear Creek Trail"
           (fields (Samples.trail "2" "Bear Creek Trail" "/trail/bear-creek-2"))).
  - reflexivity.
  - apply (bool_decide_unpack _). vm_compute. exact I.
Defined.

(** The corpus stage on one trail scraped twice and another one. *)
Definition scraped_twice_stage : corpus_stage :=
  match main_corpus Samples.scraped_twice with
  | Ok s => s
  | Raise _ => CorpusStage [] [] ∅ [] [] []
  end.

Lemma main_corpus_url_dict_by_position_witness :
  url_dict scraped_twice_stage !! 1 = Some "/trail/royal-arch".
Proof.
  apply (main_corpus_url_dict_by_position Samples.scraped_twice
           scraped_twice_stage 1).
  vm_compute. reflexivity.
Defined.

Lemma main_corpus_row_witness :
  ∃ r, df_corpus scraped_twice_stage !! 1 = Some (1, r)
       ∧ c_url r = "/trail/royal-arch"
       ∧ review_document (RDict [("0", RList ["ann"; "5"; " Lovely views. "])])
         = Ok (review_string r)
       ∧ Corpus.all r
         = "dogs on leash" +:+ " " +:+ "A shaded canyon walk." +:+ " "
           +:+ "" +:+ " " +:+ review_string r.
Proof.
  apply (main_corpus_row Samples.scraped_twice scraped_twice_stage 1
           (Samples.trail "2" "Royal Arch Trail" "/trail/royal-arch")).
  - vm_compute. reflexivity.
  - reflexivity.
Defined.

End ReviewsMore.

(** ** Topic Model: the labels of the tables *)

Module TopicsMore.
Import Topics TopicsFacts.

Section labels.
Context {L P C : Type}.
Variable get_nmf : list (list Q) → nat → nat → list (list Q) * list (list Q).
Variable topic_table : list (list Q) → list string → nat → P.

Lemma nmf_topic_modeling_columns (corpus : frame L C) tfidf feats
    n_topics n_words max_iter df_pretty W_df H_df :
  nmf_topic_modeling get_nmf topic_table corpus tfidf feats n_topics n_words max_iter
  = Ok (df_pretty, W_df, H_df) →
  columns W_df
  = ((λ i, "topic_" +:+ pretty i) <$> seq 1 n_topics) ++ ["majority_topic"].
Proof.
  unfold nmf_topic_modeling.
  destruct (get_nmf tfidf n_topics max_iter) as [W H]. simpl.
  destruct (document_topics W) as [topics|e]; [|done]. simpl.
  case_bool_decide; [|done]. simpl.
  destruct (DataFrame (map round2 <$> W) _ _) as [W_df0|e] eqn:HW; simpl; [|done].
  destruct (DataFrame (map round2 <$> H) _ feats) as [H_df0|e]; simpl; [|done].
  intros [= _ <- _]. simpl.
  unfold DataFrame in HW. case_bool_decide; [|done]. by injection HW as <-.
Qed.

End labels.


End TopicsMore.

(** ** Feature Fusion: categories and indicator columns *)

Module FusionMore.
Import Corpus Topics Fusion TopicsFacts FusionFacts TopicsMore.

Lemma categories_perm values : categories values ≡ₚ remove_dups values.
Proof. apply merge_sort_Permutation. Qed.

Lemma categories_NoDup values : NoDup (categories values).
Proof. rewrite categories_perm. apply NoDup_remove_dups. Qed.

Lemma elem_of_categories values c : c ∈ categories values ↔ c ∈ values.
Proof. rewrite categories_perm. apply elem_of_remove_dups. Qed.

Lemma categories_sorted values : StronglySorted String.le (categories values).
Proof. apply StronglySorted_merge_sort; apply _. Qed.

(** The category that [drop_first=True] leaves without a column is the
    least value of the column in string order. *)
Theorem get_dummies_reference_is_least values c0 c :
  head (categories values) = Some c0 → c ∈ values →
  c0 ∈ values ∧ String.le c0 c.
Proof.
  intros Hhead Hc. pose proof (categories_sorted values) as Hs.
  apply elem_of_categories in Hc.
  destruct (categories values) as [|c0' cats] eqn:Hcats; [done|].
  injection Hhead as ->. split.
  - apply elem_of_categories. rewrite Hcats. by left.
  - apply elem_of_cons in Hc as [->|Hc]; [done|].
    apply StronglySorted_inv in Hs as [_ Hall].
    rewrite Forall_forall in Hall. by apply Hall.
Qed.

(** The indicator cells of a row are all zero when the row has the
    reference category, and otherwise hold a single one, in the column of
    the row's category. *)
Theorem dummies_one_hot values v :
  v ∈ values →
  let cats := categories values in
  (head cats = Some v ∧ dummies cats v = replicate (length (tail cats)) 0%Q)
  ∨ (∃ k, tail cats !! k = Some v
          ∧ dummies cats v = <[k := 1%Q]> (replicate (length (tail cats)) 0%Q)).
Proof.
  intros Hv%elem_of_categories. simpl.
  pose proof (categories_NoDup values) as Hnd.
  destruct (categories values) as [|c0 cats]; [by apply elem_of_nil in Hv|].
  apply NoDup_cons in Hnd as [Hc0 Hnd]. unfold dummies. simpl.
  apply elem_of_cons in Hv as [->|Hv].
  - left. split; [done|]. apply list_eq. intros i.
    rewrite list_lookup_fmap.
    destruct (cats !! i) as [c|] eqn:Hc; simpl.
    + rewrite decide_False.
      * symmetry. apply lookup_replicate_2. by eapply lookup_lt_Some.
      * intros ->. apply Hc0. by eapply list_elem_of_lookup_2.
    + symmetry. apply lookup_ge_None. rewrite length_replicate.
      by apply lookup_ge_None.
  - right. apply list_elem_of_lookup in Hv as [k Hk]. exists k.
    split; [done|]. apply list_eq. intros i. rewrite list_lookup_fmap.
    pose proof (lookup_lt_Some _ _ _ Hk) as Hlt.
    destruct (decide (i = k)) as [->|Hne].
    + rewrite Hk. simpl. rewrite decide_True by done.
      by rewrite list_lookup_insert_eq by (by rewrite length_replicate).
    + rewrite list_lookup_insert_ne by done.
      destruct (cats !! i) as [c|] eqn:Hc; simpl.
      * rewrite decide_False.
        -- symmetry. apply lookup_replicate_2. by eapply lookup_lt_Some.
        -- intros ->. apply Hne. by eapply NoDup_lookup.
      * symmetry. apply lookup_ge_None. rewrite length_replicate.
        by apply lookup_ge_None.
Qed.

Lemma dummies_length cats v : length (dummies cats v) = length (tail cats).
Proof. unfold dummies. by rewrite length_fmap. Qed.

Lemma dummy_columns_length prefix cats :
  length (dummy_columns prefix cats) = length (tail cats).
Proof. unfold dummy_columns. by rewrite length_fmap. Qed.

Lemma topic_label_not_majority (i : nat) :
  "topic_" +:+ pretty i ≠ "majority_topic".
Proof. unfold String.app. simpl. discriminate. Qed.

Section shape.
Context `{EqDecision L} {N P C : Type}.
Variable get_nmf : list (list Q) → nat → nat → list (list Q) * list (list Q).
Variable topic_table : list (list Q) → list string → nat → P.

(** When the topic table comes from [nmf_topic_modeling] and every trail
    has one numeric attribute per numeric column, every row of the fused
    table has one feature per column label. *)
Theorem fused_rows_fit_columns (corpus : frame L C) tfidf feats
    n_topics n_words max_iter df_pretty W_df H_df
    numeric_columns (df_hike : frame L (hike_row N)) j l fr :
  nmf_topic_modeling get_nmf topic_table corpus tfidf feats n_topics n_words max_iter
  = Ok (df_pretty, W_df, H_df) →
  Forall (λ p, length (h_numeric p.2) = length numeric_columns) df_hike →
  rows (fuse numeric_columns df_hike W_df) !! j = Some (l, fr) →
  length (features fr) = length (columns (fuse numeric_columns df_hike W_df)).
Proof.
  intros Hrun Hnum Hj.
  destruct (nmf_topic_modeling_rows _ _ _ _ _ _ _ _ _ _ _ Hrun) as [_ Hrows].
  pose proof (nmf_topic_modeling_columns _ _ _ _ _ _ _ _ _ _ _ Hrun) as Hcols.
  unfold fuse in *. simpl in *.
  apply list_lookup_fmap_Some in Hj as ([l' [h w]] & [= -> ->] & Hm).
  apply list_elem_of_lookup_2, elem_of_merge in Hm as [Hh Hw].
  apply list_elem_of_lookup in Hw as [i Hi].
  destruct (Hrows i l' w Hi) as (w0 & k & _ & _ & Hlen & _ & Hround & _).
  rewrite Forall_forall in Hnum. specialize (Hnum _ Hh). simpl in Hnum.
  assert (Hfilter : filter (λ c, c ≠ "majority_topic") (columns W_df)
                    = (λ i, "topic_" +:+ pretty i) <$> seq 1 n_topics).
  { rewrite Hcols, filter_app, filter_cons_False, filter_nil, app_nil_r
      by (intros Hne; by apply Hne).
    generalize (seq 1 n_topics). intros ns.
    induction ns as [|n ns IH]; [done|].
    rewrite fmap_cons, filter_cons_True by apply topic_label_not_majority.
    by rewrite IH. }
  simpl. rewrite Hfilter, length_fmap, !length_app, !length_fmap, length_seq.
  rewrite !dummies_length, !dummy_columns_length, Hnum, Hround, length_fmap, Hlen.
  done.
Qed.
End shape.

Lemma fused_rows_fit_columns_witness :
  length [1400; 7 # 2; 9 # 2; 3 # 25; 22 # 25; 1; 0; 1; 0]%Q
  = length (columns (fuse Samples.sample_numeric_columns Samples.sample_hikes
                       Samples.sample_W_df)).
Proof.
  apply (fused_rows_fit_columns Samples.sample_nmf Samples.sample_topic_table
           Samples.sample_corpus [] Samples.sample_feats 2 10 250 tt
           Samples.sample_W_df Samples.sample_H_df
           Samples.sample_numeric_columns Samples.sample_hikes 0
           "Royal Arch Trail"
           (FusedRow tt [1400; 7 # 2; 9 # 2; 3 # 25; 22 # 25; 1; 0; 1; 0]%Q)).
  - vm_compute. reflexivity.
  - apply (bool_decide_unpack _). vm_compute. exact I.
  - vm_compute. reflexivity.
Defined.

Lemma get_dummies_reference_is_least_witness :
  "easy" ∈ ["hard"; "easy"; "moderate"; "easy"]
  ∧ String.le "easy" "moderate".
Proof.
  apply (get_dummies_reference_is_least ["hard"; "easy"; "moderate"; "easy"]
           "easy" "moderate").
  - vm_compute. reflexivity.
  - apply (bool_decide_unpack _). vm_compute. exact I.
Defined.

Lemma dummies_one_hot_witness :
  let cats := categories ["hard"; "easy"; "moderate"; "easy"] in
  (head cats = Some "moderate"
   ∧ dummies cats "moderate" = replicate (length (tail cats)) 0%Q)
  ∨ (∃ k, tail cats !! k = Some "moderate"
          ∧ dummies cats "moderate"
            = <[k := 1%Q]> (replicate (length (tail cats)) 0%Q)).
Proof.
  apply (dummies_one_hot ["hard"; "easy"; "moderate"; "easy"] "moderate").
  apply (bool_decide_unpack _). vm_compute. exact I.
Defined.

End FusionMore.

(** ** Similarity Engine: counts out of range, missing urls *)

Module EngineMore.
Import Engine SortFacts EngineFacts.

Lemma Forall_py_slice {A} (P : A → Prop) (a b : Z) (l : list A) :
  Forall P l → Forall P (py_slice a b l).
Proof. intros Hl. unfold py_slice. by apply Forall_take, Forall_drop. Qed.

Section counts.
Context `{Argsort}.
Variable cosine_similarity : list Q → list Q → Q.

(** In a loaded state a seed query for a known trail never raises,
    whatever the count.  A count from -1 up prints [min n (T - 1)] trails
    ([T] the number of trails): nothing for -1 or 0, all the others when
    [n] exceeds them.  A count [n <= -2] is not rejected either: the slice
    [1:n+1] then ends [-(n+1)] positions before the end and [T + n] trails
    are printed. *)
Theorem seed_query_line_count g out seed (n : Z) s row :
  loaded g → similarity_df g !! s = Some (seed, row) →
  ∃ lines,
    get_hike_recommendations seed n (World g out)
    = (Ok (), World g (out ++ header seed :: lines))
    ∧ length lines
      = if (n <? -1)%Z then Z.to_nat (Z.of_nat (length (hikes g)) + n)
        else Nat.min (Z.to_nat n) (length (hikes g) - 1).
Proof.
  intros Hg Hs.
  pose proof Hg as (Hnd & Hidx & Hsim & Hsq & _).
  assert (Hrow : length row = length (hikes g)).
  { rewrite Forall_forall in Hsq.
    by apply (Hsq (seed, row)), list_elem_of_lookup_2 with s. }
  assert (Hpos : 0 < length (hikes g)).
  { rewrite <- Hsim. unfold index. rewrite length_fmap.
    by eapply Nat.le_lt_trans; [apply Nat.le_0_l|eapply lookup_lt_Some]. }
  destruct (rec_lines_exist g (py_slice 1 (n + 1) (ranking row)) Hg)
    as [lines Hlines].
  { apply Forall_py_slice, Forall_forall.
    intros i Hi%ranking_elem_of. by rewrite <- Hrow. }
  exists lines. split.
  - unfold get_hike_recommendations.
    rewrite bind_run. simpl.
    rewrite bind_run, (loc_run _ s seed row) by (by rewrite ?Hsim).
    rewrite bind_run. simpl. by apply recommend_run.
  - rewrite <- (Forall2_length _ _ _ Hlines).
    unfold py_slice. rewrite length_take, length_drop, ranking_length, Hrow.
    destruct (Z.ltb_spec 1 0) as [?|_]; [lia|].
    destruct (Z.ltb_spec (n + 1) 0), (Z.ltb_spec n (-1)); lia.
Qed.

(** In a loaded state a profile query for known trails and a count that is
    not negative prints [min n (T - len(items))] trails: none at all once
    there are as many liked items as trails. *)
Theorem profile_query_line_count g out items (n : Z) :
  loaded g → Forall (λ i, i ∈ hikes g) items → (0 ≤ n)%Z →
  ∃ lines,
    get_user_recommendation cosine_similarity items n (World g out)
    = (Ok (), World g (out ++ header (String.concat ", " items) :: lines))
    ∧ length lines
      = Nat.min (Z.to_nat n) (length (hikes g) - length items).
Proof.
  intros Hg Hitems Hn.
  destruct (profile_run cosine_similarity g out items n Hg Hitems Hn)
    as (vecs & lines & _ & _ & Hlines & Hrun).
  exists lines. split; [done|].
  rewrite <- (Forall2_length _ _ _ Hlines).
  rewrite length_take, length_drop, ranking_length, length_fmap.
  by destruct Hg as (_ & _ & _ & _ & -> & _).
Qed.
End counts.

Lemma seed_query_line_count_witness :
  ∃ lines,
    get_hike_recommendations "Mesa Trail" (-2) (World Samples.sample_globals [])
    = (Ok (), World Samples.sample_globals ([] ++ header "Mesa Trail" :: lines))
    ∧ length lines
      = if (-2 <? -1)%Z
        then Z.to_nat (Z.of_nat (length (hikes Samples.sample_globals)) + -2)
        else Nat.min (Z.to_nat (-2)) (length (hikes Samples.sample_globals) - 1).
Proof.
  apply (seed_query_line_count Samples.sample_globals [] "Mesa Trail" (-2) 2
           [4 # 5; 24 # 25; 1; 3 # 5]%Q).
  - apply (bool_decide_unpack _). vm_compute. exact I.
  - reflexivity.
Defined.

Lemma profile_query_line_count_witness :
  ∃ lines,
    get_user_recommendation dot ["Mesa Trail"; "Royal Arch Trail"] 5
      (World Samples.sample_globals [])
    = (Ok (), World Samples.sample_globals
                ([] ++ header (String.concat ", " ["Mesa Trail"; "Royal Arch Trail"])
                    :: lines))
    ∧ length lines
      = Nat.min (Z.to_nat 5)
          (length (hikes Samples.sample_globals)
           - length ["Mesa Trail"; "Royal Arch Trail"]).
Proof.
  apply (profile_query_line_count dot Samples.sample_globals []
           ["Mesa Trail"; "Royal Arch Trail"] 5).
  - apply (bool_decide_unpack _). vm_compute. exact I.
  - apply (bool_decide_unpack _). vm_compute. exact I.
  - discriminate.
Defined.

Lemma print_recs_missing_url g hikes_ pre i post recs_pre h recs_post lines out :
  Forall2 (λ i h, hikes_ !! i = Some h) pre recs_pre →
  Forall2 (λ h line, ∃ u, hike_url_dict g !! h = Some u
                          ∧ line = h +:+ ": " +:+ u) recs_pre lines →
  hikes_ !! i = Some h → hike_url_dict g !! h = None →
  print_recs hikes_ (pre ++ i :: post) (recs_pre ++ h :: recs_post) (World g out)
  = (Raise (KeyError h), World g (out ++ lines)).
Proof.
  intros Hrecs Hlines Hi Hh. unfold print_recs. rewrite bind_run. simpl.
  rewrite bind_run.
  match goal with |- context [mapM ?f _] => set (body := f) end.
  assert (Hloop : mapM body (zip (pre ++ i :: post) (recs_pre ++ h :: recs_post))
                    (World g out)
                  = (Raise (KeyError h), World g (out ++ lines))); [|by rewrite Hloop].
  revert out lines Hlines.
  induction Hrecs as [|j r pre recs_pre Hj _ IH]; intros out lines Hlines.
  - apply Forall2_nil_inv_l in Hlines as ->. rewrite app_nil_r. simpl.
    rewrite bind_run. unfold body at 1. simpl.
    rewrite bind_run. unfold getitem. rewrite Hi. simpl.
    rewrite bind_run. unfold dict_getitem. by rewrite Hh.
  - apply Forall2_cons_inv_l in Hlines as (line & lines' & (u & Hu & ->) & Hl & ->).
    simpl. rewrite bind_run. unfold body at 1. simpl.
    rewrite bind_run. unfold getitem. rewrite Hj. simpl.
    rewrite bind_run. unfold dict_getitem. rewrite Hu. simpl.
    rewrite bind_run, (IH _ _ Hl). simpl. by rewrite <- app_assoc.
Qed.

Lemma names_exist {A} (l : list A) (idx : list nat) :
  Forall (λ j, j < length l) idx →
  ∃ xs, Forall2 (λ j x, l !! j = Some x) idx xs.
Proof.
  induction 1 as [|j idx Hj _ [xs IH]]; [by exists []|].
  apply lookup_lt_is_Some_2 in Hj as [x Hx].
  exists (x :: xs). by constructor.
Qed.

Section missing_url.
Context `{Argsort}.

(** When a trail about to be recommended has no entry in the url
    dictionary, the seed query raises [KeyError] with that trail's name,
    after it has printed the header and the recommendations ranked before
    it. *)
Theorem seed_query_missing_url g out seed (n : Z) s row pre i post h lines :
  NoDup (index (similarity_df g)) →
  df_merged_index g = hikes g →
  length row = length (hikes g) →
  similarity_df g !! s = Some (seed, row) →
  (0 ≤ n)%Z →
  take (Z.to_nat n) (drop 1 (ranking row)) = pre ++ i :: post →
  Forall2 (λ j line, rec_line g j = Some line) pre lines →
  hikes g !! i = Some h →
  hike_url_dict g !! h = None →
  get_hike_recommendations seed n (World g out)
  = (Raise (KeyError h), World g (out ++ header seed :: lines)).
Proof.
  intros Hnd Hidx Hrow Hs Hn Hslice Hlines Hi Hh.
  assert (∃ recs, Forall2 (λ j r, hikes g !! j = Some r) (pre ++ i :: post) recs)
    as [recs Hrecs].
  { rewrite <- Hslice.
    assert (Hall : Forall (λ j, j < length (hikes g))
                     (take (Z.to_nat n) (drop 1 (ranking row)))).
    { apply Forall_take, Forall_drop, Forall_forall.
      intros j Hj%ranking_elem_of. by rewrite <- Hrow. }
    by apply names_exist. }
  pose proof Hrecs as Hrecs'.
  apply Forall2_app_inv_l in Hrecs'
    as (recs_pre & recs_rest & Hpre & Hrest & Hsplit).
  apply Forall2_cons_inv_l in Hrest as (h' & recs_post & Hi' & _ & ->).
  assert (h' = h) as -> by congruence.
  assert (Hurls : Forall2 (λ r line, ∃ u, hike_url_dict g !! r = Some u
                                          ∧ line = r +:+ ": " +:+ u)
                    recs_pre lines).
  { clear -Hpre Hlines. revert lines Hlines.
    induction Hpre as [|j r pre recs_pre Hj _ IH]; intros lines Hlines.
    - apply Forall2_nil_inv_l in Hlines as ->. constructor.
    - apply Forall2_cons_inv_l in Hlines as (line & lines' & Hline & Hl & ->).
      constructor; [|by apply IH].
      unfold rec_line in Hline. rewrite Hj in Hline. simpl in Hline.
      destruct (hike_url_dict g !! r) as [u|]; [|done].
      injection Hline as <-. eauto. }
  unfold get_hike_recommendations.
  rewrite bind_run. simpl.
  rewrite bind_run, (loc_run _ s seed row) by done.
  rewrite bind_run. simpl.
  rewrite (py_slice_nonneg 1 n) by lia.
  change (Z.to_nat 1) with 1. change (reverse (argsort row)) with (ranking row).
  rewrite Hslice, Hidx.
  rewrite bind_run, (mapM_getitem_run _ _ _ _ Hrecs), Hsplit.
  rewrite bind_run. simpl.
  rewrite (print_recs_missing_url g (hikes g) pre i post recs_pre h recs_post lines)
    by done.
  by rewrite <- app_assoc.
Qed.
End missing_url.

(** The sample state without a url for one trail. *)
Definition globals_without_url : globals :=
  Globals Samples.sample_similarity Samples.sample_names
    (delete "Bear Creek Trail" Samples.sample_urls)
    Samples.sample_X Samples.sample_names.

Lemma seed_query_missing_url_witness :
  get_hike_recommendations "Royal Arch Trail" 3 (World globals_without_url [])
  = (Raise (KeyError "Bear Creek Trail"),
     World globals_without_url
       ([] ++ header "Royal Arch Trail" :: ["Mesa Trail: /trail/mesa"])).
Proof.
  apply (seed_query_missing_url globals_without_url [] "Royal Arch Trail" 3 0
           [1; 3 # 5; 4 # 5; 0]%Q [2] 1 [3] "Bear Creek Trail"
           ["Mesa Trail: /trail/mesa"]).
  - apply (bool_decide_unpack _). vm_compute. exact I.
  - reflexivity.
  - reflexivity.
  - reflexivity.
  - discriminate.
  - vm_compute. reflexivity.
  - repeat constructor.
  - reflexivity.
  - vm_compute. reflexivity.
Defined.

End EngineMore.

(** ** Text Vectorizer: the top words of a term matrix *)

Module KeywordsFacts.
Import Engine SortFacts EngineFacts Keywords ReviewsMore.

Lemma item_Some {A} (l : list A) i x : l !! i = Some x → item l i = Ok x.
Proof. intros Hi. unfold item. by rewrite Hi. Qed.

Lemma item_None {A} (l : list A) i :
  (length l ≤ i)%nat → item l i = Raise (IndexError i (length l)).
Proof. intros Hi%lookup_ge_None. unfold item. by rewrite Hi. Qed.

Lemma wrap64_range (z : Z) :
  (- 9223372036854775808 ≤ wrap64 z < 9223372036854775808)%Z.
Proof.
  unfold wrap64.
  change (2 ^ 63)%Z with 9223372036854775808%Z.
  change (2 ^ 64)%Z with 18446744073709551616%Z.
  pose proof (Z.mod_pos_bound (z + 9223372036854775808) 18446744073709551616
                ltac:(lia)).
  lia.
Qed.

(** A value that fits is left as it is. *)
Lemma wrap64_fits (z : Z) :
  (- 9223372036854775808 ≤ z < 9223372036854775808)%Z → wrap64 z = z.
Proof.
  intros Hz. unfold wrap64.
  change (2 ^ 63)%Z with 9223372036854775808%Z.
  change (2 ^ 64)%Z with 18446744073709551616%Z.
  rewrite Z.mod_small by lia. lia.
Qed.

(** The negation of the least [int64] is itself. *)
Lemma wrap64_opp_min : wrap64 (- - 9223372036854775808) = (- 9223372036854775808)%Z.
Proof. reflexivity. Qed.

(** Two counts of [2^62] in one column add up to [2^63], which [int64]
    holds as [-2^63]. *)
Example column_sums_wrap_around :
  column_sums (Counts 1 [[2 ^ 62]; [2 ^ 62]]%Z) = [(- 2 ^ 63)%Z].
Proof. reflexivity. Qed.

Lemma column_sums_length X : length (column_sums X) = shape1 X.
Proof. unfold column_sums. by rewrite length_fmap, length_seq. Qed.

Lemma column_sums_lookup X i t :
  column_sums X !! i = Some t → t = wrap64 (column_total X i).
Proof.
  unfold column_sums. rewrite list_lookup_fmap.
  destruct (seq 0 (shape1 X) !! i) as [j|] eqn:Hj; [|done].
  apply lookup_seq in Hj as [-> _]. simpl. by intros [= <-].
Qed.

Lemma py_slice_prefix {A} (n : Z) (l : list A) :
  (0 ≤ n)%Z → py_slice 0 n l = take (Z.to_nat n) l.
Proof.
  intros Hn. rewrite <- (Z.add_0_r n) at 1.
  by rewrite py_slice_nonneg by lia.
Qed.

Lemma dict_of_entries (entries : list (string * Z)) :
  foldl (λ d kv, <[kv.1 := kv.2]> d) (∅ : gmap string Z) entries
  = list_to_map (reverse entries).
Proof.
  induction entries as [|[k v] entries IH] using rev_ind; [done|].
  by rewrite foldl_app, reverse_snoc, list_to_map_cons, <- IH.
Qed.

(** What one entry of the comprehension holds for column [i]. *)
Definition entry_of (X : counts) (features : list string) (i : nat)
    (kv : string * Z) : Prop :=
  features !! i = Some kv.1 ∧ column_sums X !! i = Some kv.2.

Lemma entries_exist X features (idx : list nat) :
  Forall (λ i, i < length features ∧ i < shape1 X) idx →
  ∃ entries,
    mapM (λ i, word ← item features i;
               total ← item (column_sums X) i;
               Ok (word, total)) idx = Ok entries
    ∧ Forall2 (entry_of X features) idx entries.
Proof.
  induction 1 as [|i idx [Hf Hs] _ (entries & Hm & Hall)].
  - exists []. split; [done|constructor].
  - apply lookup_lt_is_Some_2 in Hf as [word Hword].
    rewrite <- column_sums_length in Hs.
    apply lookup_lt_is_Some_2 in Hs as [total Htotal].
    exists ((word, total) :: entries). split.
    + simpl. rewrite (item_Some _ _ _ Hword). simpl.
      rewrite (item_Some _ _ _ Htotal). simpl. by rewrite Hm.
    + by constructor.
Qed.

Lemma entries_NoDup X features idx entries :
  NoDup features → NoDup idx →
  Forall2 (entry_of X features) idx entries →
  NoDup entries.*1.
Proof.
  intros Hf Hidx Hall. induction Hall as [|i kv idx entries [Hk _] Hall IH].
  - constructor.
  - apply NoDup_cons in Hidx as [Hi Hidx]. rewrite fmap_cons.
    constructor; [|by apply IH].
    intros (kv' & Heq & [p Hp]%list_elem_of_lookup)%list_elem_of_fmap.
    destruct (Forall2_lookup_r _ _ _ _ _ Hall Hp) as (i' & Hi' & [Hk' _]).
    rewrite Heq in Hk. apply Hi.
    rewrite (NoDup_lookup _ _ _ _ Hf Hk Hk').
    by eapply list_elem_of_lookup_2.
Qed.

Section top_words.
Context `{Argsort}.

(** The keys [get_top_words_tf] sorts by: the negated sums, as [int64]. *)
Definition sort_keys (X : counts) : list Q :=
  (λ t, inject_Z (wrap64 (- t))) <$> column_sums X.

Lemma top_indices X (n : Z) :
  let idx := take (Z.to_nat n) (argsort (sort_keys X)) in
  NoDup idx ∧ Forall (λ i, i < shape1 X) idx
  ∧ length idx = Nat.min (Z.to_nat n) (shape1 X).
Proof.
  simpl. pose proof (argsort_perm (sort_keys X)) as Hp.
  unfold sort_keys in Hp at 2. rewrite length_fmap, column_sums_length in Hp.
  split; [|split].
  - eapply sublist_NoDup; [|apply sublist_take]. rewrite Hp. apply NoDup_seq.
  - apply Forall_take, Forall_forall. intros i Hi. rewrite Hp in Hi.
    apply elem_of_seq in Hi. lia.
  - by rewrite length_take, Hp, length_seq.
Qed.

(** With one distinct word per column and a count that is not negative,
    [get_top_words_tf] returns a dict of [min n_words columns] words, each
    a word of the vocabulary mapped to the sum of its column as [int64]
    arithmetic leaves it: the exact sum when that fits, the sum wrapped
    around otherwise. *)
Theorem get_top_words_tf_entries X features (n : Z) :
  NoDup features → (shape1 X ≤ length features)%nat → (0 ≤ n)%Z →
  ∃ top_dict,
    get_top_words_tf X features n = Ok top_dict
    ∧ size top_dict = Nat.min (Z.to_nat n) (shape1 X)
    ∧ ∀ word count, top_dict !! word = Some count →
        ∃ i, features !! i = Some word
             ∧ (i < shape1 X)%nat
             ∧ count = wrap64 (column_total X i)
             ∧ ((- 2 ^ 63 ≤ column_total X i < 2 ^ 63)%Z →
                count = column_total X i).
Proof.
  intros Hnd Hlen Hn.
  destruct (top_indices X n) as (Hidx & Hlt & Hcount).
  destruct (entries_exist X features
              (take (Z.to_nat n) (argsort (sort_keys X))))
    as (entries & Hm & Hall).
  { eapply Forall_impl; [exact Hlt|]. simpl. lia. }
  pose proof (entries_NoDup _ _ _ _ Hnd Hidx Hall) as Hkeys.
  exists (list_to_map (reverse entries)). split; [|split].
  - unfold get_top_words_tf. rewrite py_slice_prefix by done.
    fold (sort_keys X). rewrite Hm. simpl. by rewrite dict_of_entries.
  - rewrite map_size_list_to_map
      by (by rewrite fmap_reverse, reverse_Permutation).
    rewrite length_reverse, <- (Forall2_length _ _ _ Hall). done.
  - intros word count Hw. apply elem_of_list_to_map_2 in Hw.
    rewrite elem_of_reverse in Hw.
    apply list_elem_of_lookup in Hw as [p Hp].
    destruct (Forall2_lookup_r _ _ _ _ _ Hall Hp) as (i & _ & Hi & Ht).
    simpl in Hi, Ht. exists i. split; [done|].
    pose proof (lookup_lt_Some _ _ _ Ht) as Hin.
    rewrite column_sums_length in Hin. split; [done|].
    apply column_sums_lookup in Ht. split; [done|].
    intros Hfit. rewrite Ht. by apply wrap64_fits.
Qed.

(** A word that is returned has a column sum (as [int64] has it) at least
    as large as that of every word left out, with one exception: a sum of
    exactly [-2^63] is its own negation and so ranks first. *)
Theorem get_top_words_tf_top X features (n : Z) top_dict i j word other count s t :
  NoDup features → (shape1 X ≤ length features)%nat → (0 ≤ n)%Z →
  get_top_words_tf X features n = Ok top_dict →
  features !! i = Some word → column_sums X !! i = Some s →
  features !! j = Some other → column_sums X !! j = Some t →
  top_dict !! word = Some count → top_dict !! other = None →
  (s = - 2 ^ 63 ∨ t ≤ s)%Z.
Proof.
  intros Hnd Hlen Hn Hrun Hi Hs Hj Ht Hword Hother.
  destruct (top_indices X n) as (Hidx & Hlt & Hcount).
  destruct (entries_exist X features
              (take (Z.to_nat n) (argsort (sort_keys X))))
    as (entries & Hm & Hall).
  { eapply Forall_impl; [exact Hlt|]. simpl. lia. }
  pose proof (entries_NoDup _ _ _ _ Hnd Hidx Hall) as Hkeys.
  unfold get_top_words_tf in Hrun. rewrite py_slice_prefix in Hrun by done.
  fold (sort_keys X) in Hrun.
  rewrite Hm in Hrun. simpl in Hrun. rewrite dict_of_entries in Hrun.
  injection Hrun as <-.
  set (v := sort_keys X) in *.
  (* the position of [i] in the sorted order is among the first [n] *)
  apply elem_of_list_to_map_2 in Hword. rewrite elem_of_reverse in Hword.
  apply list_elem_of_lookup in Hword as [p Hp].
  destruct (Forall2_lookup_r _ _ _ _ _ Hall Hp) as (i' & Hi' & Hk & _).
  simpl in Hk. assert (i' = i) as -> by apply (NoDup_lookup _ _ _ _ Hnd Hk Hi).
  apply lookup_take_Some in Hi' as [Hpi Hpn].
  (* the position of [j] is not *)
  assert (Hjin : j ∈ argsort v).
  { rewrite argsort_perm, elem_of_seq. unfold v, sort_keys.
    rewrite length_fmap. apply lookup_lt_Some in Ht. lia. }
  apply list_elem_of_lookup in Hjin as [q Hq].
  assert (Z.to_nat n ≤ q)%nat as Hqn.
  { destruct (decide (q < Z.to_nat n)) as [Hlt'|]; [exfalso|lia].
    assert (Hqt : take (Z.to_nat n) (argsort v) !! q = Some j)
      by (by apply lookup_take_Some).
    destruct (Forall2_lookup_l _ _ _ _ _ Hall Hqt) as ([w c] & Hkv & Hw & _).
    simpl in Hw. rewrite Hj in Hw. injection Hw as <-.
    apply not_elem_of_list_to_map_2 in Hother. apply Hother.
    rewrite fmap_reverse, elem_of_reverse.
    apply list_elem_of_fmap. exists (other, c). split; [done|].
    by eapply list_elem_of_lookup_2. }
  pose proof (argsort_sorted v p q i j (inject_Z (wrap64 (- s)))
                (inject_Z (wrap64 (- t))) ltac:(lia) Hpi Hq) as Hle.
  unfold v, sort_keys in Hle. rewrite !list_lookup_fmap, Hs, Ht in Hle.
  specialize (Hle eq_refl eq_refl). rewrite <- Zle_Qle in Hle.
  pose proof (column_sums_lookup _ _ _ Hs) as Hsr.
  pose proof (column_sums_lookup _ _ _ Ht) as Htr.
  pose proof (wrap64_range (column_total X i)) as Hsb. rewrite <- Hsr in Hsb.
  pose proof (wrap64_range (column_total X j)) as Htb. rewrite <- Htr in Htb.
  change (2 ^ 63)%Z with 9223372036854775808%Z.
  destruct (decide (s = - 9223372036854775808)%Z) as [|Hsmin]; [by left|right].
  rewrite (wrap64_fits (- s)) in Hle by lia.
  destruct (decide (t = - 9223372036854775808)%Z) as [->|Htmin].
  - rewrite wrap64_opp_min in Hle. lia.
  - rewrite (wrap64_fits (- t)) in Hle by lia. lia.
Qed.

(** When the vocabulary is shorter than the matrix is wide and all columns
    are asked for, the lookup of a word fails with [IndexError]. *)
Theorem get_top_words_tf_short_vocabulary X features (n : Z) :
  (length features < shape1 X)%nat → (Z.of_nat (shape1 X) ≤ n)%Z →
  ∃ i, (length features ≤ i)%nat
       ∧ get_top_words_tf X features n
         = Raise (IndexError i (length features)).
Proof.
  intros Hshort Hn. unfold get_top_words_tf.
  rewrite py_slice_prefix by lia. fold (sort_keys X).
  pose proof (argsort_perm (sort_keys X)) as Hp.
  unfold sort_keys in Hp at 2. rewrite length_fmap, column_sums_length in Hp.
  set (v := sort_keys X) in *.
  rewrite take_ge by (rewrite Hp, length_seq; lia).
  assert (Hbad : Exists (λ i, length features ≤ i)%nat (argsort v)).
  { apply Exists_exists. exists (length features). split; [|done].
    rewrite Hp, elem_of_seq. lia. }
  assert (Hok : Forall (λ i, i < shape1 X) (argsort v)).
  { apply Forall_forall. intros i Hi. rewrite Hp, elem_of_seq in Hi. lia. }
  clear Hp. induction (argsort v) as [|i idx IH]; [by apply Exists_nil in Hbad|].
  apply Forall_cons in Hok as [Hi Hok]. simpl.
  destruct (decide (length features ≤ i)%nat) as [Hge|Hlt].
  - exists i. split; [done|]. by rewrite (item_None features i Hge).
  - apply Exists_cons in Hbad as [?|Hbad]; [lia|].
    destruct (IH Hbad Hok) as (i' & Hi' & Hrun). exists i'. split; [done|].
    destruct (lookup_lt_is_Some_2 features i) as [word Hword]; [lia|].
    rewrite (item_Some _ _ _ Hword). simpl.
    destruct (lookup_lt_is_Some_2 (column_sums X) i) as [total Htotal];
      [by rewrite column_sums_length|].
    rewrite (item_Some _ _ _ Htotal). simpl.
    destruct (mapM _ idx) as [entries|e]; simpl in *; [done|].
    by injection Hrun as ->.
Qed.
End top_words.

(** A term matrix of two documents over three words. *)
Definition sample_counts : counts := Counts 3 [[1; 0; 2]; [1; 1; 2]]%Z.

Lemma get_top_words_tf_entries_witness :
  ∃ top_dict,
    get_top_words_tf sample_counts ["arch"; "creek"; "mesa"] 2 = Ok top_dict
    ∧ size top_dict = Nat.min (Z.to_nat 2) (shape1 sample_counts)
    ∧ ∀ word count, top_dict !! word = Some count →
        ∃ i, ["arch"; "creek"; "mesa"] !! i = Some word
             ∧ (i < shape1 sample_counts)%nat
             ∧ count = wrap64 (column_total sample_counts i)
             ∧ ((- 2 ^ 63 ≤ column_total sample_counts i < 2 ^ 63)%Z →
                count = column_total sample_counts i).
Proof.
  apply (get_top_words_tf_entries sample_counts ["arch"; "creek"; "mesa"] 2).
  - apply (bool_decide_unpack _). vm_compute. exact I.
  - vm_compute. lia.
  - discriminate.
Defined.

Lemma get_top_words_tf_top_witness : (4 = - 2 ^ 63 ∨ 1 ≤ 4)%Z.
Proof.
  apply (get_top_words_tf_top sample_counts ["arch"; "creek"; "mesa"] 2
           (<["arch" := 2%Z]> (<["mesa" := 4%Z]> ∅))
           2 1 "mesa" "creek" 4%Z 4%Z 1%Z).
  - apply (bool_decide_unpack _). vm_compute. exact I.
  - vm_compute. lia.
  - discriminate.
  - vm_compute. reflexivity.
  - reflexivity.
  - vm_compute. reflexivity.
  - reflexivity.
  - vm_compute. reflexivity.
  - vm_compute. reflexivity.
  - vm_compute. reflexivity.
Defined.

Lemma get_top_words_tf_short_vocabulary_witness :
  ∃ i, (length ["arch"] ≤ i)%nat
       ∧ get_top_words_tf sample_counts ["arch"] 3
         = Raise (IndexError i (length ["arch"])).
Proof.
  apply (get_top_words_tf_short_vocabulary sample_counts ["arch"] 3).
  - vm_compute. lia.
  - vm_compute. discriminate.
Defined.

End KeywordsFacts.

(** ** Similarity Engine: building the similarity table *)


Module SimilarityFacts.
Import Topics Fusion Engine EngineFacts Similarity.

Section facts.
Variable fit_transform : bool → bool → list (list Q) → list (list Q).
Variable cosine_similarity : list Q → list Q → Q.

Lemma make_sim_matrix_parts {M} merged_df (measure : M) mean std df_scaled similarity_df X :
  make_sim_matrix fit_transform cosine_similarity merged_df measure mean std
  = Ok (df_scaled, similarity_df, X) →
  let idx := index (rows merged_df) in
  let scaled := fit_transform mean std (features ∘ snd <$> rows merged_df) in
  length scaled = length idx
  ∧ Forall (λ r, length r = length (columns merged_df)) scaled
  ∧ rows df_scaled = zip idx scaled
  ∧ columns df_scaled = columns merged_df
  ∧ X = NDArray (length (columns merged_df)) scaled
  ∧ rows similarity_df
    = zip idx ((λ x, cosine_similarity x <$> scaled) <$> scaled)
  ∧ columns similarity_df = idx.
Proof.
  unfold make_sim_matrix. simpl.
  destruct (DataFrame (fit_transform _ _ _) _ _) as [df|e] eqn:Hdf; simpl; [|done].
  unfold DataFrame in Hdf. case_bool_decide as Hshape; [|done].
  injection Hdf as <-. simpl. destruct Hshape as [Hlen Hcols].
  rewrite snd_zip by lia.
  unfold DataFrame. case_bool_decide as Hsq; simpl; [|done].
  intros [= <- <- <-]. by repeat split.
Qed.

(** What [make_sim_matrix] returns is a loaded state for the queries, as
    soon as the trail names are distinct and each has a url: the table is
    square and labelled by the names on both axes, and [X] has one row
    per trail and one column per feature. *)
Theorem make_sim_matrix_loaded {M} merged_df (measure : M) mean std
    df_scaled similarity_df X (urls : gmap string string) :
  make_sim_matrix fit_transform cosine_similarity merged_df measure mean std
  = Ok (df_scaled, similarity_df, X) →
  NoDup (index (rows merged_df)) →
  Forall (λ h, is_Some (urls !! h)) (index (rows merged_df)) →
  columns similarity_df = index (rows merged_df)
  ∧ loaded (Globals (rows similarity_df) (index (rows merged_df)) urls X
              (index (rows merged_df))).
Proof.
  intros (Hlen & Hcols & _ & _ & -> & Hsim & Hlabels)%make_sim_matrix_parts
    Hnd Hurls.
  split; [done|]. unfold loaded. simpl. rewrite Hsim.
  assert (Hl : length ((λ x, cosine_similarity x
                <$> fit_transform mean std (features ∘ snd <$> rows merged_df))
              <$> fit_transform mean std (features ∘ snd <$> rows merged_df))
               = length (index (rows merged_df)))
    by (by rewrite length_fmap).
  repeat split; try done.
  - unfold index at 1. apply fst_zip. lia.
  - apply Forall_forall. intros [l r] Hin.
    apply (list_elem_of_fmap_2 snd) in Hin. rewrite snd_zip in Hin by lia.
    apply list_elem_of_fmap in Hin as (x & -> & _). simpl.
    by rewrite length_fmap.
Qed.

(** Cell [(i, j)] of the similarity table is the similarity of rows [i]
    and [j] of [X]. *)
Theorem make_sim_matrix_cells {M} merged_df (measure : M) mean std
    df_scaled similarity_df X i j li ri x y :
  make_sim_matrix fit_transform cosine_similarity merged_df measure mean std
  = Ok (df_scaled, similarity_df, X) →
  rows similarity_df !! i = Some (li, ri) →
  data X !! i = Some x → data X !! j = Some y →
  ri !! j = Some (cosine_similarity x y).
Proof.
  intros (Hlen & _ & _ & _ & -> & Hsim & _)%make_sim_matrix_parts Hi Hx Hy.
  rewrite Hsim in Hi. simpl in Hx, Hy.
  apply lookup_zip_Some in Hi as [_ Hi].
  apply list_lookup_fmap_Some in Hi as (x' & -> & Hx').
  assert (x' = x) as -> by congruence.
  by rewrite list_lookup_fmap, Hy.
Qed.

(** The similarity table is symmetric whenever the measure is. *)
Theorem make_sim_matrix_symmetric {M} merged_df (measure : M) mean std
    df_scaled similarity_df X i j li lj ri rj :
  (∀ x y, cosine_similarity x y = cosine_similarity y x) →
  make_sim_matrix fit_transform cosine_similarity merged_df measure mean std
  = Ok (df_scaled, similarity_df, X) →
  rows similarity_df !! i = Some (li, ri) →
  rows similarity_df !! j = Some (lj, rj) →
  ri !! j = rj !! i.
Proof.
  intros Hsym (_ & _ & _ & _ & _ & Hsim & _)%make_sim_matrix_parts Hi Hj.
  rewrite Hsim in Hi, Hj.
  apply lookup_zip_Some in Hi as [_ Hi]. apply lookup_zip_Some in Hj as [_ Hj].
  apply list_lookup_fmap_Some in Hi as (x & -> & Hx).
  apply list_lookup_fmap_Some in Hj as (y & -> & Hy).
  rewrite !list_lookup_fmap, Hx, Hy. simpl. by rewrite Hsym.
Qed.
End facts.

(** The fused table of the four sample trails, a scaler with both flags
    off (it returns its argument), and the inner product as the measure. *)
Definition sample_merged : loadings string (fused_row unit) :=
  Loadings ["elevation"; "topic_1"]
    (zip Samples.sample_names (FusedRow tt <$> data Samples.sample_X)).
Definition no_scaling (mean std : bool) (m : list (list Q)) : list (list Q) := m.

Definition sample_make_sim_matrix
    : result (loadings string (list Q) * loadings string (list Q) * ndarray) :=
  make_sim_matrix no_scaling dot sample_merged () false false.
Definition sample_scaled : loadings string (list Q) :=
  Eval vm_compute in
    match sample_make_sim_matrix with
    | Ok out => out.1.1
    | Raise _ => Loadings [] []
    end.
Definition sample_similarity_df : loadings string (list Q) :=
  Eval vm_compute in
    match sample_make_sim_matrix with
    | Ok out => out.1.2
    | Raise _ => Loadings [] []
    end.

Lemma make_sim_matrix_loaded_witness :
  columns sample_similarity_df = index (rows sample_merged)
  ∧ loaded (Globals (rows sample_similarity_df) (index (rows sample_merged))
              Samples.sample_urls Samples.sample_X (index (rows sample_merged))).
Proof.
  apply (make_sim_matrix_loaded no_scaling dot sample_merged () false false
           sample_scaled sample_similarity_df Samples.sample_X Samples.sample_urls).
  - vm_compute. reflexivity.
  - apply (bool_decide_unpack _). vm_compute. exact I.
  - apply (bool_decide_unpack _). vm_compute. exact I.
Defined.

Lemma make_sim_matrix_cells_witness :
  [1; 15 # 25; 20 # 25; 0]%Q !! 1 = Some (dot [1; 0]%Q [3 # 5; 4 # 5]%Q).
Proof.
  apply (make_sim_matrix_cells no_scaling dot sample_merged () false false
           sample_scaled sample_similarity_df Samples.sample_X 0 1
           "Royal Arch Trail").
  - vm_compute. reflexivity.
  - vm_compute. reflexivity.
  - reflexivity.
  - reflexivity.
Defined.

Lemma Qmult_comm_eq (a b : Q) : (a * b)%Q = (b * a)%Q.
Proof.
  destruct a as [an ad], b as [bn bd]. unfold Qmult. simpl.
  by rewrite Z.mul_comm, Pos.mul_comm.
Qed.

Lemma dot_comm (u v : list Q) : dot u v = dot v u.
Proof.
  unfold dot. revert v. induction u as [|a u IH]; intros [|b v]; simpl; try done.
  by rewrite Qmult_comm_eq, IH.
Qed.

Lemma make_sim_matrix_symmetric_witness :
  [1; 15 # 25; 20 # 25; 0]%Q !! 1
  = [15 # 25; 625 # 625; 600 # 625; 20 # 25]%Q !! 0.
Proof.
  apply (make_sim_matrix_symmetric no_scaling dot sample_merged () false false
           sample_scaled sample_similarity_df Samples.sample_X 0 1
           "Royal Arch Trail" "Bear Creek Trail").
  - apply dot_comm.
  - vm_compute. reflexivity.
  - vm_compute. reflexivity.
  - vm_compute. reflexivity.
Defined.

End SimilarityFacts.
